(** * The listeners package and the GUI renderer of the agent

    A shallow embedding of
      - package [listeners] (ID, ContainerPort, Service, ServiceListener,
        the factory registry with [Register], the sentinel ErrNotSupported);
      - the helpers of [cmd/gui/render.go] ([mkHuman], [mkHumanInt],
        [renderStatus], [fillTemplate]).

    Go values are modelled as the program has them: a [map] as a [gmap]
    (with the nil map apart, since assigning into it panics), a func value
    that may be nil as an [option], an [error] as nil or the address of the
    object behind it, package-level variables as a record that every
    function threads through. *)

From Stdlib Require Import ZArith String Ascii List Lia.
From Stdlib Require Import Floats.SpecFloat.
From stdpp Require Import base option gmap strings list pretty.

Local Open Scope string_scope.
Local Open Scope Z_scope.

(** ** Go run time: outcomes of a call, package state, format verbs *)

Module GoRuntime.

(** A call either returns to its caller or panics. *)
Inductive outcome (S A : Type) : Type :=
| Returned (a : A) (s : S)
| Panicked (why : string) (s : S).
Arguments Returned {S A} a s.
Arguments Panicked {S A} why s.

(** Code that reads and writes package-level state of type [S]. *)
Definition Go (S A : Type) : Type := S -> outcome S A.

Definition ret {S A} (a : A) : Go S A := fun s => Returned a s.

Definition bind {S A B} (m : Go S A) (k : A -> Go S B) : Go S B :=
  fun s => match m s with
           | Returned a s' => k a s'
           | Panicked why s' => Panicked why s'
           end.

Definition panic {S A} (why : string) : Go S A := fun s => Panicked why s.

Definition get {S} : Go S S := fun s => Returned s s.

(** [fmt]'s %s verb with a string operand: the first %s of the format is
    replaced by the operand as it is. *)
Fixpoint Sprintf_s (format operand : string) : string :=
  match format with
  | EmptyString => EmptyString
  | String c rest =>
      match rest with
      | String d rest' =>
          if (Ascii.eqb c "%" && Ascii.eqb d "s")%bool
          then operand ++ rest'
          else String c (Sprintf_s rest operand)
      | EmptyString => String c EmptyString
      end
  end.

(** Two's complement wrap-around of a [w]-bit signed integer. *)
Definition wrap (w : Z) (z : Z) : Z :=
  (z + 2 ^ (w - 1)) mod 2 ^ w - 2 ^ (w - 1).

(** The platforms differ in the width of [int]. *)
Inductive GOARCH := arch32 | arch64.

Definition intSize (a : GOARCH) : Z :=
  match a with arch32 => 32 | arch64 => 64 end.

Definition minInt (a : GOARCH) : Z := - 2 ^ (intSize a - 1).
Definition maxInt (a : GOARCH) : Z := 2 ^ (intSize a - 1) - 1.

(** Conversion of an integer to [int]. *)
Definition int (a : GOARCH) (z : Z) : Z := wrap (intSize a) z.

Definition minInt64 : Z := - 2 ^ 63.
Definition maxInt64 : Z := 2 ^ 63 - 1.

End GoRuntime.

#[global] Instance Go_ret {S} : MRet (GoRuntime.Go S) := @GoRuntime.ret S.
#[global] Instance Go_bind {S} : MBind (GoRuntime.Go S) :=
  fun A B k m => GoRuntime.bind m k.

(** ** Package errors of the Go library: [errors.New] and error identity *)

Module errors.

(** An [error] is nil or points to an object; two errors are the same when
    they point to the same object, whatever its text. *)
Inductive error : Type :=
| nil
| errorString_at (addr : nat).

(** The objects allocated so far, by address: each holds its text. *)
Definition heap := list string.

(** [errors.New(text)] returns a pointer to a new object holding [text]. *)
Definition New (text : string) (h : heap) : error * heap :=
  (errorString_at (length h), (h ++ [text])%list).

(** [err.Error()]. *)
Definition Error (e : error) (h : heap) : option string :=
  match e with
  | nil => None
  | errorString_at a => h !! a
  end.

(** [e1 == e2] on two error values. *)
Definition error_eqb (e1 e2 : error) : bool :=
  match e1, e2 with
  | nil, nil => true
  | errorString_at a, errorString_at b => Nat.eqb a b
  | _, _ => false
  end.

Definition is_nil (e : error) : bool := error_eqb e nil.

End errors.

(** ** Package listeners *)

Module listeners.
Import GoRuntime.

(** [type ID string] *)
Definition ID := string.

(** [type ContainerPort struct { Port int; Name string }] *)
Record ContainerPort : Type := { Port : Z; Name : string }.

(** The composite literal [ContainerPort{Port: port, Name: name}]: the field
    holds an [int] of the platform. *)
Definition mkContainerPort (a : GOARCH) (port : Z) (name : string) : ContainerPort :=
  {| Port := int a port; Name := name |}.

(** [type Service interface]: the method set, over the implementing type.
    GetID has the single result [ID]; the six others return a value and an
    [error]. *)
Class Service (T : Type) : Type := {
  GetID : T -> ID;
  GetADIdentifiers : T -> list string * errors.error;
  GetHosts : T -> gmap string string * errors.error;
  GetPorts : T -> list ContainerPort * errors.error;
  GetTags : T -> list string * errors.error;
  GetPid : T -> Z * errors.error;
  GetHostname : T -> string * errors.error
}.

(** What a caller of a [(value, error)] method sees: it failed when the
    error is not nil. *)
Definition failed {V : Type} (r : V * errors.error) : bool :=
  negb (errors.is_nil (snd r)).

(** A service none of whose six data is available: an identifier alone, every
    accessor with an error result returning the error [e]; with a nil [e]
    the six return their zero values and succeed. *)
Definition nothing_known (e : errors.error) : Service ID := {|
  GetID := fun i => i;
  GetADIdentifiers := fun _ => ([], e);
  GetHosts := fun _ => (∅, e);
  GetPorts := fun _ => ([], e);
  GetTags := fun _ => ([], e);
  GetPid := fun _ => (0, e);
  GetHostname := fun _ => ("", e)
|}.

(** Severity of a line given to the logger. *)
Inductive level := Warn | Err.

Section Registry.
(** [ServiceListenerFactory]: the func values other than nil. *)
Context {Func : Type}.

(** [type ServiceListenerFactory func() (ServiceListener, error)]: a func
    value, or nil. *)
Definition ServiceListenerFactory : Type := option Func.

(** The package-level variables, with the logger's output and the objects
    behind the errors. A map variable holds a map or nil. *)
Record globals : Type := {
  ServiceListenerFactories : option (gmap string ServiceListenerFactory);
  ErrNotSupported : errors.error;
  logged : list (level * string);
  objects : errors.heap
}.

(** [m[k]] read with the comma-ok form: the zero value and false when [k] is
    absent, also on a nil map. *)
Definition map_index (m : option (gmap string ServiceListenerFactory)) (k : string)
  : ServiceListenerFactory * bool :=
  match m with
  | None => (None, false)
  | Some g => match g !! k with
              | Some v => (v, true)
              | None => (None, false)
              end
  end.

(** [ServiceListenerFactories[k] = v]: panics on a nil map. *)
Definition map_assign (k : string) (v : ServiceListenerFactory) : Go globals unit :=
  fun s => match ServiceListenerFactories s with
           | None => panic "assignment to entry in nil map" s
           | Some g =>
               Returned tt {| ServiceListenerFactories := Some (<[k := v]> g);
                              ErrNotSupported := ErrNotSupported s;
                              logged := logged s;
                              objects := objects s |}
           end.

(** Modelled from the spec: [log.Warnf] and [log.Errorf] of the agent's log
    package, which is not part of the source; each hands one formatted line
    to the logger at its level and returns to the caller. *)
Definition log_line (l : level) (format operand : string) : Go globals unit :=
  fun s => Returned tt {| ServiceListenerFactories := ServiceListenerFactories s;
                          ErrNotSupported := ErrNotSupported s;
                          logged := (logged s ++ [(l, Sprintf_s format operand)])%list;
                          objects := objects s |}.

Definition log_Warnf := log_line Warn.
Definition log_Errorf := log_line Err.

(** The text of [ErrNotSupported]. *)
Definition not_supported_text : string := "AD: variable not supported by listener".

(** The initialisation of the package's variables:
    [ServiceListenerFactories = make(map[string]ServiceListenerFactory)] and
    [ErrNotSupported = errors.New(...)]. *)
Definition init (h : errors.heap) : globals :=
  let '(e, h') := errors.New not_supported_text h in
  {| ServiceListenerFactories := Some ∅;
     ErrNotSupported := e;
     logged := [];
     objects := h' |}.

(** [func Register(name string, factory ServiceListenerFactory)] *)
Definition Register (name : string) (factory : ServiceListenerFactory) : Go globals unit :=
  (if factory is None
   then log_Warnf "Service listener factory %s does not exist." name
   else mret tt) ;;
  s ← get;
  let '(_, registered) := map_index (ServiceListenerFactories s) name in
  (if registered
   then log_Errorf "Service listener factory %s already registered. Ignoring." name
   else mret tt) ;;
  map_assign name factory.

(** Whether [name] is a key of the registry. *)
Definition registered_in (s : globals) (name : string) : bool :=
  snd (map_index (ServiceListenerFactories s) name).

(** The lines [Register] writes: for a nil factory, for a name in use. *)

Definition warning_of (name : string) : level * string :=
  (Warn, "Service listener factory " ++ name ++ " does not exist.").

Definition conflict_of (name : string) : level * string :=
  (Err, "Service listener factory " ++ name ++ " already registered. Ignoring.").

(** The lines one call of [Register] hands to the logger. *)
Definition lines_of_Register (s : globals) (name : string)
  (factory : ServiceListenerFactory) : list (level * string) :=
  ((if factory is None then [warning_of name] else []) ++
   (if registered_in s name then [conflict_of name] else []))%list.

(** The states the package is in: after its initialisation and any number
    of calls of [Register]. *)
Inductive reachable : globals -> Prop :=
| reach_init h : reachable (init h)
| reach_Register s name factory s' :
    reachable s -> Register name factory s = Returned tt s' -> reachable s'.

End Registry.
Arguments globals : clear implicits.
Arguments ServiceListenerFactory : clear implicits.

End listeners.

(** ** Package strings of the Go library, on strings as sequences of bytes *)

Module GoStrings.

(** [len(s)] *)
Definition len (s : string) : Z := Z.of_nat (String.length s).

(** [s[n:]] for [n] within the string. *)
Fixpoint drop (n : nat) (s : string) : string :=
  match n, s with
  | O, _ => s
  | S n', String _ s' => drop n' s'
  | S _, EmptyString => EmptyString
  end.

(** [s[:n]] for [n] within the string. *)
Fixpoint take (n : nat) (s : string) : string :=
  match n, s with
  | O, _ => EmptyString
  | S n', String c s' => String c (take n' s')
  | S _, EmptyString => EmptyString
  end.

(** [strings.HasPrefix(s, prefix)] *)
Definition HasPrefix (s prefix : string) : bool := String.prefix prefix s.

(** [strings.Index(s, substr)]: the index of the first place where [substr]
    starts in [s], or -1. *)
Fixpoint Index (s substr : string) : Z :=
  if HasPrefix s substr then 0
  else match s with
       | EmptyString => -1
       | String _ s' =>
           let i := Index s' substr in
           if i <? 0 then -1 else i + 1
       end.

(** [strings.Contains(s, substr)] *)
Definition Contains (s substr : string) : bool := 0 <=? Index s substr.

(** The byte [c] is one of [s]. *)
Fixpoint has_byte (c : ascii) (s : string) : bool :=
  match s with
  | EmptyString => false
  | String d s' => Ascii.eqb c d || has_byte c s'
  end.

(** [strings.Replace(s, old, new, -1)] for a pattern [old] that is not empty,
    as every pattern of this program is: from left to right, each place
    where [old] starts gives [new] and the scan goes on after the
    occurrence; [skip] counts the bytes of the occurrence still to pass. *)
Fixpoint replace_from (old new : string) (skip : nat) (s : string) : string :=
  match s with
  | EmptyString => EmptyString
  | String c s' =>
      match skip with
      | S k => replace_from old new k s'
      | O =>
          if HasPrefix s old
          then new ++ replace_from old new (String.length old - 1) s'
          else String c (replace_from old new 0 s')
      end
  end.

Definition Replace (s old new : string) : string := replace_from old new 0 s.

(** No byte of [p] is one of [t]. *)
Definition apart (p t : string) : Prop :=
  forall c, has_byte c p = true -> has_byte c t = false.

(** [strings.Join(a, sep)] *)
Definition Join (a : list string) (sep : string) : string := String.concat sep a.

End GoStrings.

(** ** cmd/gui/render.go *)

Module gui.
Import GoRuntime.

(** A [float64], as the IEEE 754 datum it is. *)
Definition float64 := spec_float.

(** The conversion [int64(f)]: the fraction is discarded; the language
    defines the result only for a number whose integer part is an [int64]. *)
Definition int64_of_float64 (f : float64) : option Z :=
  match f with
  | S754_zero _ => Some 0
  | S754_infinity _ => None
  | S754_nan => None
  | S754_finite sign m e =>
      let magnitude := if 0 <=? e then Z.pos m * 2 ^ e else Z.pos m / 2 ^ (- e) in
      let i := if sign then - magnitude else magnitude in
      if (minInt64 <=? i) && (i <=? maxInt64) then Some i else None
  end.

(** [fmt.Sprintf("%d", i)] *)
Definition Sprintf_d (i : Z) : string := pretty i.

(** [func mkHumanInt(i int64) string] *)
Definition mkHumanInt (i : Z) : string :=
  let str := Sprintf_d i in
  if 1000000 <? i then "over 1M"
  else if 100000 <? i then "over 100K"
  else str.

(** [func mkHuman(f float64) string]; no result where [int64(f)] has none. *)
Definition mkHuman (f : float64) : option string :=
  match int64_of_float64 f with
  | None => None
  | Some i =>
      let str := Sprintf_d i in
      Some (if 1000000 <? i then "over 1M"
            else if 100000 <? i then "over 100K"
            else str)
  end.

Section Render.
(** The library and the files on disk that rendering goes through:
    [encoding/json], [html/template] and the directory [templates/]. *)

(** [map[string]interface{}] and [make] of it. *)
Context {Stats : Type} (make_stats : Stats).
(** [json.Unmarshal(data, &stats)]: the map as it leaves it, and its error. *)
Context (json_Unmarshal : list Byte.byte -> Stats -> Stats * errors.error).
(** [*template.Template], [template.FuncMap] and the package's [fmap]. *)
Context {Template FuncMap : Type} (fmap : FuncMap).
Context (template_New : string -> Template).
Context (Funcs : Template -> FuncMap -> Template).
Context (ParseFiles : Template -> string -> Template * errors.error).
(** [t.Execute(w, stats)] on a writer that holds [w]: what it holds after,
    and the error. *)
Context (Execute : Template -> string -> Stats -> string * errors.error).

(** [func fillTemplate(w io.Writer, stats map[string]interface{}, request string) error] *)
Definition fillTemplate (w : string) (stats : Stats) (request : string)
  : string * errors.error :=
  let t := template_New (request ++ ".tmpl") in
  let t := Funcs t fmap in
  let '(t, e) := ParseFiles t ("templates/" ++ request ++ ".tmpl") in
  if negb (errors.is_nil e) then (w, e)
  else Execute t w stats.

(** [func renderStatus(data []byte, request string) (string, error)] *)
Definition renderStatus (data : list Byte.byte) (request : string)
  : string * errors.error :=
  let b := "" in
  let stats := make_stats in
  let '(stats, _) := json_Unmarshal data stats in
  let '(b, e) := fillTemplate b stats (request ++ "Status") in
  if negb (errors.is_nil e) then ("", e)
  else (b, errors.nil).

End Render.

(** [func add(x, y int) int] *)
Definition add (a : GOARCH) (x y : Z) : Z := int a (x + y).

(** What a function without state gives: a result, a panic, or nothing yet
    when the bound on the turns of its loop was too small. *)
Inductive result (A : Type) : Type :=
| Done (a : A)
| Panics (why : string)
| OutOfFuel.
Arguments Done {A} a.
Arguments Panics {A} why.
Arguments OutOfFuel {A}.

(** The line feed, the one byte of the Go literal of a newline. *)
Definition newline : string := String (ascii_of_nat 10) EmptyString.

(** Three spaces that do not break, as the pages show indentation. *)
Definition nbsp3 : string := "&nbsp;&nbsp;&nbsp;".

Section TemplateFunctions.
(** [json.Unmarshal] into a [[]map[string]string] and into a [[]string]: the
    slice as it leaves it, and its error. An element of the first may be the
    nil map. *)
Context (json_Unmarshal_maps :
           list Byte.byte -> list (option (gmap string string)) * errors.error).
Context (json_Unmarshal_strings : list Byte.byte -> list string * errors.error).

(** [m[k]] on a [map[string]string] that may be nil: the zero value where
    the key is absent. *)
Definition map_at (m : option (gmap string string)) (k : string) : string :=
  match m with
  | None => ""
  | Some g => default "" (g !! k)
  end.

(** [func pythonLoaderError(value string) template.HTML]; what the
    unmarshalling at its end gives is not used. *)
Definition pythonLoaderError (value : string) : string :=
  let value := GoStrings.Replace value "', '" "" in
  let value := GoStrings.Replace value "['" "" in
  let value := GoStrings.Replace value "\n']" "" in
  let value := GoStrings.Replace value "']" "" in
  let value := GoStrings.Replace value "\n" "<br>" in
  let value := GoStrings.Replace value "  " "&nbsp;&nbsp;&nbsp;" in
  let '(loaderErrorArray, _) := json_Unmarshal_strings (list_byte_of_string value) in
  value.

(** [func lastErrorTraceback(value string) template.HTML] *)
Definition lastErrorTraceback (value : string) : result string :=
  let '(lastErrorArray, err) := json_Unmarshal_maps (list_byte_of_string value) in
  if negb (errors.is_nil err) || (Z.of_nat (length lastErrorArray) =? 0)
  then Done "No traceback"
  else
    match lastErrorArray with
    | [] => Panics "index out of range"
    | None :: _ => Panics "assignment to entry in nil map"
    | Some first :: _ =>
        let first :=
          <["traceback" :=
              GoStrings.Replace (map_at (Some first) "traceback") newline "<br>"]> first in
        let first :=
          <["traceback" :=
              GoStrings.Replace (map_at (Some first) "traceback") "  "
                "&nbsp;&nbsp;&nbsp;"]> first in
        Done (map_at (Some first) "traceback")
    end.

(** [func lastErrorMessage(value string) template.HTML] *)
Definition lastErrorMessage (value : string) : string :=
  let '(lastErrorArray, err) := json_Unmarshal_maps (list_byte_of_string value) in
  if errors.is_nil err && (0 <? Z.of_nat (length lastErrorArray))
  then
    match lastErrorArray with
    | Some g :: _ =>
        match g !! "message" with
        | Some message => message
        | None => "UNKNOWN ERROR"
        end
    | _ => "UNKNOWN ERROR"
    end
  else "UNKNOWN ERROR".

End TemplateFunctions.

Section Titles.
(** [strings.IndexFunc(s, unicode.IsUpper)] and [strings.Title] of the
    library, with the tables of Unicode behind them. *)
Context (IndexFunc_IsUpper : string -> Z).
Context (Title : string -> string).

(** The loop of [formatTitle] that splits a title in camel case into its
    words: [for s := title; s != ""; s = s[l:]]. A slice beyond the end of
    the string panics. Each turn takes at least one byte, so [fuel] turns
    are enough for a string of [fuel] bytes. *)
Fixpoint camel_words (fuel : nat) (s : string) (words : list string)
  : result (list string) :=
  match s with
  | EmptyString => Done words
  | String _ s1 =>
      match fuel with
      | O => OutOfFuel
      | S fuel' =>
          let l := IndexFunc_IsUpper s1 + 1 in
          let l := if l <=? 0 then GoStrings.len s else l in
          if GoStrings.len s <? l then Panics "slice bounds out of range"
          else camel_words fuel' (GoStrings.drop (Z.to_nat l) s)
                 (words ++ [GoStrings.take (Z.to_nat l) s])%list
      end
  end.

(** [func formatTitle(title string) string] *)
Definition formatTitle (title : string) : result string :=
  if String.eqb title "os" then Done "OS"
  else
    match camel_words (String.length title) title [] with
    | Done words => Done (Title (GoStrings.Join words " "))
    | Panics why => Panics why
    | OutOfFuel => OutOfFuel
    end.

End Titles.

(** Every byte of the string is below 128. *)
Fixpoint is_ascii (s : string) : bool :=
  match s with
  | EmptyString => true
  | String c s' => (nat_of_ascii c <? 128)%nat && is_ascii s'
  end.

(** The letters A to Z, the upper case of the bytes below 128. *)
Definition is_upper_ascii (c : ascii) : bool :=
  (65 <=? nat_of_ascii c)%nat && (nat_of_ascii c <=? 90)%nat.

(** [strings.IndexFunc(s, unicode.IsUpper)] on a string whose bytes are all
    below 128, where every byte is a character of its own. *)
Fixpoint index_upper_ascii (s : string) : Z :=
  match s with
  | EmptyString => -1
  | String c s' =>
      if is_upper_ascii c then 0
      else let i := index_upper_ascii s' in
           if i <? 0 then -1 else i + 1
  end.

(** What the library says of [strings.IndexFunc]: -1 or an index of the
    string. *)
Definition IndexFunc_in_range (IndexFunc : string -> Z) : Prop :=
  forall s, -1 <= IndexFunc s < GoStrings.len s.

(** On strings of bytes below 128 the library's function is the search for
    a letter A to Z. *)
Definition IndexFunc_on_ascii (IndexFunc : string -> Z) : Prop :=
  forall s, is_ascii s = true -> IndexFunc s = index_upper_ascii s.

(** A space before every letter A to Z of the string. *)
Fixpoint space_before_upper (s : string) : string :=
  match s with
  | EmptyString => EmptyString
  | String c s' =>
      if is_upper_ascii c
      then String " " (String c (space_before_upper s'))
      else String c (space_before_upper s')
  end.

(** A space before every letter A to Z but a first one. *)
Definition spaced (title : string) : string :=
  match title with
  | EmptyString => EmptyString
  | String c s' => String c (space_before_upper s')
  end.

(** A line of the log with the tag of a level. *)
Definition tagged (text : string) : bool :=
  GoStrings.Contains text "| WARN |" ||
  GoStrings.Contains text "| INFO |" ||
  GoStrings.Contains text "| ERROR |".

(** A line of the log that says the config file of the check is not valid. *)
Definition names_invalid_config (name text : string) : bool :=
  GoStrings.Contains text (name ++ ".yaml is not a valid config file:").

(** The loop of [renderError] over the lines of the log: outside a block, a
    line that names the check's config file as invalid starts a block with
    itself; inside one, a line with no level tag is added to it, and a
    tagged line ends the block and is passed over. [in_block] tells the
    inner [for scanner.Scan()] from the outer one. *)
Fixpoint scan_log (name : string) (in_block : bool) (parserErr : string)
  (lines : list string) : string :=
  match lines with
  | [] => parserErr
  | text :: rest =>
      if in_block then
        if negb (GoStrings.Contains text "| WARN |" ||
                 GoStrings.Contains text "| INFO |" ||
                 GoStrings.Contains text "| ERROR |")
        then scan_log name true (parserErr ++ text) rest
        else scan_log name false parserErr rest
      else
        if GoStrings.Contains text (name ++ ".yaml is not a valid config file:")
        then scan_log name true text rest
        else scan_log name false parserErr rest
  end.

Section RenderMore.
Context {Template FuncMap Stats LoaderErrs : Type} (fmap : FuncMap).
Context (template_New : string -> Template).
Context (Funcs : Template -> FuncMap -> Template).
Context (ParseFiles : Template -> string -> Template * errors.error).

(** [type CheckStats struct { Name string; Stats []*check.Stats }] *)
Record CheckStats : Type := { CheckStats_Name : string; CheckStats_Stats : list Stats }.

(** [type Errors struct { Name string; LoaderErrs ...; ParsingErr string }] *)
Record Errors : Type := {
  Errors_Name : string;
  Errors_LoaderErrs : LoaderErrs;
  Errors_ParsingErr : string
}.

(** [t.Execute(w, data)] for the two kinds of data. *)
Context (Execute_CheckStats : Template -> string -> CheckStats -> string * errors.error).
Context (Execute_Errors : Template -> string -> Errors -> string * errors.error).
(** [autodiscovery.GetLoaderErrors()] and [config.Datadog.GetString("log_file")]
    at the time of the call. *)
Context (GetLoaderErrors : LoaderErrs) (log_file : string).
(** [os.Open] of a path: its error, and the lines a scanner reads from the
    file. *)
Context (os_Open : string -> list string * errors.error).
(** [e.Error()] *)
Context (Error_text : errors.error -> string).

(** [func renderCheck(name string, stats []*check.Stats) (string, error)] *)
Definition renderCheck (name : string) (stats : list Stats) : string * errors.error :=
  let b := "" in
  let t := template_New "singleCheck.tmpl" in
  let t := Funcs t fmap in
  let '(t, e) := ParseFiles t "templates/singleCheck.tmpl" in
  if negb (errors.is_nil e) then ("", e)
  else
    let cs := {| CheckStats_Name := name; CheckStats_Stats := stats |} in
    let '(b, e) := Execute_CheckStats t b cs in
    if negb (errors.is_nil e) then ("", e)
    else (b, errors.nil).

(** [func renderError(name string) (string, error)], with the formats it
    hands to [log.Errorf]. *)
Definition renderError (name : string) : string * errors.error * list string :=
  let b := "" in
  let t := template_New "loaderErr.tmpl" in
  let t := Funcs t fmap in
  let '(t, e) := ParseFiles t "templates/loaderErr.tmpl" in
  if negb (errors.is_nil e) then ("", e, [])
  else
    let loaderErrs := GetLoaderErrors in
    let parserErr := "" in
    let '(logFile, e) := os_Open log_file in
    if negb (errors.is_nil e)
    then ("", e, ["GUI - Error reading log file: " ++ Error_text e])
    else
      let parserErr := scan_log name false parserErr logFile in
      let errs := {| Errors_Name := name; Errors_LoaderErrs := loaderErrs;
                     Errors_ParsingErr := parserErr |} in
      let '(b, e) := Execute_Errors t b errs in
      if negb (errors.is_nil e) then ("", e, [])
      else (b, errors.nil, []).

End RenderMore.

End gui.

(** ** A listener, after the spec *)

Module lifecycle.
Import listeners.

(** The states of a listener: constructed, then listening, then stopped. *)
Inductive phase := constructed | listening | stopped.

Section Listener.
Context {T : Type} `{Service T}.

(** What the watched back end reports: a service it sees, an identifier it
    no longer sees. *)
Inductive notification := appeared (svc : T) | disappeared (i : ID).

(** What happens to a listener: the two methods of the interface, and the
    reports of its back end. *)
Inductive call := Listen | Stop | Notify (n : notification).

(** A send on one of the two channels of [Listen(newSvc, delSvc)]. *)
Inductive event := on_newSvc (svc : T) | on_delSvc (svc : T).

Definition event_ID (e : event) : ID :=
  match e with on_newSvc svc => GetID svc | on_delSvc svc => GetID svc end.

Definition is_add (e : event) : bool :=
  match e with on_newSvc _ => true | on_delSvc _ => false end.

(** Modelled from the spec: the listeners of the concrete back ends, which
    are not part of the source. The listener "holds a cache of running
    services, listens to new/killed services and updates its cache"; while
    listening, "discovered services are pushed, one per event, onto addChan;
    services that disappear are pushed onto delChan", and the producer itself
    keeps the order ("preserve the ordering invariant (add-before-delete per
    ID) explicitly in the producer"): a service already in the cache is not
    pushed again, and only a service of the cache is pushed as gone. Nothing
    is pushed before [Listen] or after [Stop], and a stopped listener does
    not listen again. *)
Record listener : Type := { at_phase : phase; cache : gmap ID T }.

Definition new_listener : listener := {| at_phase := constructed; cache := ∅ |}.

Definition step (l : listener) (c : call) : listener * list event :=
  match c with
  | Listen =>
      match at_phase l with
      | constructed => ({| at_phase := listening; cache := cache l |}, [])
      | _ => (l, [])
      end
  | Stop => ({| at_phase := stopped; cache := cache l |}, [])
  | Notify n =>
      match at_phase l with
      | listening =>
          match n with
          | appeared svc =>
              match cache l !! GetID svc with
              | Some _ => (l, [])
              | None => ({| at_phase := listening;
                            cache := <[GetID svc := svc]> (cache l) |},
                         [on_newSvc svc])
              end
          | disappeared i =>
              match cache l !! i with
              | Some svc => ({| at_phase := listening; cache := delete i (cache l) |},
                             [on_delSvc svc])
              | None => (l, [])
              end
          end
      | _ => (l, [])
      end
  end.

(** The listener after a sequence of calls, and the events it pushed, in the
    order of the sends. *)
Fixpoint run (l : listener) (cs : list call) : listener * list event :=
  match cs with
  | [] => (l, [])
  | c :: cs' =>
      let '(l1, out1) := step l c in
      let '(l2, out2) := run l1 cs' in
      (l2, (out1 ++ out2)%list)
  end.

Definition event_stream (cs : list call) : list event := snd (run new_listener cs).

(** The order of the events of one identifier: whether the stream, read from
    a point where the service is running or not, adds only what is not
    running and deletes only what is. *)
Fixpoint alternates (i : ID) (running : bool) (stream : list event) : bool :=
  match stream with
  | [] => true
  | e :: rest =>
      if String.eqb (event_ID e) i
      then if is_add e
           then negb running && alternates i true rest
           else running && alternates i false rest
      else alternates i running rest
  end.

(** Whether the service is running after the stream. *)
Fixpoint running_after (i : ID) (running : bool) (stream : list event) : bool :=
  match stream with
  | [] => running
  | e :: rest =>
      if String.eqb (event_ID e) i
      then running_after i (is_add e) rest
      else running_after i running rest
  end.

(** The first event that carries [i] is an add event. *)
Definition first_is_add (stream : list event) (i : ID) : Prop :=
  forall pre e post,
    stream = (pre ++ e :: post)%list -> event_ID e = i ->
    (forall e', e' ∈ pre -> event_ID e' <> i) ->
    is_add e = true.

(** Every delete event of [i] has an add event of [i] before it. *)
Definition delete_follows_add (stream : list event) (i : ID) : Prop :=
  forall pre e post,
    stream = (pre ++ e :: post)%list -> event_ID e = i -> is_add e = false ->
    exists a, a ∈ pre /\ event_ID a = i /\ is_add a = true.

(** Between two add events of [i] there is a delete event of [i]. *)
Definition delete_between_adds (stream : list event) (i : ID) : Prop :=
  forall pre a1 mid a2 post,
    stream = (pre ++ a1 :: mid ++ a2 :: post)%list ->
    event_ID a1 = i -> is_add a1 = true ->
    event_ID a2 = i -> is_add a2 = true ->
    exists d, d ∈ mid /\ event_ID d = i /\ is_add d = false.

(** The cache follows the stream: a service is filed under its own
    identifier, and the identifiers of the cache are those the stream leaves
    running, the stream being in order for each. *)
Definition tracks (l : listener) (stream : list event) : Prop :=
  (forall i svc, cache l !! i = Some svc -> GetID svc = i) /\
  (forall i, alternates i false stream = true /\
             running_after i false stream = bool_decide (is_Some (cache l !! i))).

End Listener.
Arguments notification : clear implicits.
Arguments call : clear implicits.
Arguments event : clear implicits.
Arguments listener : clear implicits.

End lifecycle.

(** * Properties *)

(** ** The registry *)

Section RegistryFacts.
Import GoRuntime listeners.
Context {Func : Type}.
Implicit Types (s : globals Func) (factory : ServiceListenerFactory Func).

(** On a map that is not nil, [Register] runs to its last statement: it logs
    what it has to and assigns. *)
Lemma Register_on_map s g name factory :
  ServiceListenerFactories s = Some g ->
  Register name factory s =
    Returned tt {| ServiceListenerFactories := Some (<[name := factory]> g);
                   ErrNotSupported := ErrNotSupported s;
                   logged := (logged s ++ lines_of_Register s name factory)%list;
                   objects := objects s |}.
Proof.
  intros Hg.
  unfold Register, lines_of_Register, registered_in, mbind, Go_bind, bind,
    log_Warnf, log_Errorf, log_line, get, map_assign, mret, Go_ret, ret.
  destruct factory as [f|]; cbn; rewrite Hg; cbn;
    destruct (g !! name) as [v|]; cbn; rewrite ?Hg; cbn.
  all: rewrite <- ?app_assoc, ?app_nil_r; reflexivity.
Qed.

(** On a nil map the assignment panics. *)
Lemma Register_on_nil_map s name factory :
  ServiceListenerFactories s = None ->
  exists why s', Register name factory s = Panicked why s'.
Proof.
  intros Hg.
  unfold Register, mbind, Go_bind, bind, log_Warnf, log_Errorf, log_line,
    get, map_assign, panic, mret, Go_ret, ret.
  destruct factory as [f|]; cbn; rewrite Hg; cbn; rewrite ?Hg; eauto.
Qed.

(** The package never makes its map nil. *)
Lemma reachable_map s : reachable s -> is_Some (ServiceListenerFactories s).
Proof.
  induction 1 as [h | s name factory s' _ [g Hg] Hstep].
  - unfold init; cbn. eauto.
  - rewrite (Register_on_map _ _ _ _ Hg) in Hstep.
    injection Hstep as <-. cbn. eauto.
Qed.

Lemma map_index_insert (g : gmap string (ServiceListenerFactory Func)) name factory :
  map_index (Some (<[name := factory]> g)) name = (factory, true).
Proof. unfold map_index. now rewrite lookup_insert_eq. Qed.

Lemma map_index_insert_ne (g : gmap string (ServiceListenerFactory Func)) name name' factory :
  name <> name' ->
  map_index (Some (<[name := factory]> g)) name' = map_index (Some g) name'.
Proof. intros Hne. unfold map_index. now rewrite lookup_insert_ne. Qed.

(** What one call does to the registry: [name] is a key afterwards, bound to
    the factory given, nil or not; the other keys keep what they had. *)
Lemma Register_assigns s name factory :
  reachable s ->
  exists s',
    Register name factory s = Returned tt s' /\
    map_index (ServiceListenerFactories s') name = (factory, true) /\
    (forall name', name <> name' ->
       map_index (ServiceListenerFactories s') name' =
       map_index (ServiceListenerFactories s) name').
Proof.
  intros Hs. destruct (reachable_map s Hs) as [g Hg].
  eexists. split; [apply (Register_on_map _ _ _ _ Hg)|]. cbn. split.
  - apply map_index_insert.
  - intros name' Hne. rewrite Hg. now apply map_index_insert_ne.
Qed.

(** C1, on the code: [Register("docker", nil)] on the registry as the package
    initialises it. The claim says that the registry contains the name
    afterwards if and only if it did before; here "docker" is not a key
    before the call and is one after it, bound to the nil factory, since the
    function logs its warning and goes on to the assignment. *)
Theorem Register_nil_factory_adds_entry :
  let s := init (Func := Func) [] in
  registered_in s "docker" = false /\
  exists s',
    Register "docker" None s = Returned tt s' /\
    registered_in s' "docker" = true /\
    ServiceListenerFactories s' = Some {[ "docker" := None ]} /\
    logged s' = [warning_of "docker"].
Proof.
  cbn zeta. split; [reflexivity|].
  eexists. split; [apply (Register_on_map _ ∅); reflexivity|].
  cbn. split; [|split].
  - unfold registered_in, map_index; cbn. now rewrite lookup_insert_eq.
  - reflexivity.
  - reflexivity.
Qed.

(** C2: registering [f1] and then [f2] under one name, in any state of the
    package: both calls return (their result is the one value of the empty
    result list), the registry binds the name to [f1] in between and to [f2]
    afterwards, and the conflict shows only as the line the second call hands
    to the logger. *)
Theorem Register_twice_overwrites (name : string) (f1 f2 : Func) s :
  reachable s ->
  exists s1 s2,
    Register name (Some f1) s = Returned tt s1 /\
    Register name (Some f2) s1 = Returned tt s2 /\
    map_index (ServiceListenerFactories s1) name = (Some f1, true) /\
    map_index (ServiceListenerFactories s2) name = (Some f2, true) /\
    logged s2 = (logged s1 ++ [conflict_of name])%list.
Proof.
  intros Hs. destruct (reachable_map s Hs) as [g Hg].
  pose proof (Register_on_map s g name (Some f1) Hg) as H1.
  set (s1 := {| ServiceListenerFactories := Some (<[name := Some f1]> g);
                ErrNotSupported := ErrNotSupported s;
                logged := (logged s ++ lines_of_Register s name (Some f1))%list;
                objects := objects s |}) in H1.
  assert (Hg1 : ServiceListenerFactories s1 = Some (<[name := Some f1]> g))
    by reflexivity.
  pose proof (Register_on_map s1 _ name (Some f2) Hg1) as H2.
  eexists s1, _. split; [exact H1|]. split; [exact H2|]. cbn. split; [|split].
  - apply map_index_insert.
  - apply map_index_insert.
  - unfold lines_of_Register, registered_in. cbn.
    now rewrite lookup_insert_eq.
Qed.

(** C7: [Register] is total on the states of the package, for every name and
    every factory, nil included: it returns, its result carries nothing, and
    it leaves the package in a state where it can be called again. A nil
    factory and a name in use show in the logger's lines and nowhere in what
    the caller gets back. *)
Theorem Register_total (name : string) factory s :
  reachable s ->
  exists s',
    Register name factory s = Returned tt s' /\
    reachable s' /\
    logged s' = (logged s ++ lines_of_Register s name factory)%list.
Proof.
  intros Hs. destruct (reachable_map s Hs) as [g Hg].
  pose proof (Register_on_map s g name factory Hg) as Hr.
  eexists. split; [exact Hr|]. split.
  - exact (reach_Register _ _ _ _ Hs Hr).
  - reflexivity.
Qed.

End RegistryFacts.

(** Two factories registered as "docker" on the registry as the package
    initialises it; a func value is told from another by a number here. *)
Lemma Register_twice_overwrites_witness :
  exists s1 s2 : listeners.globals nat,
    listeners.Register "docker" (Some 1%nat) (listeners.init []) = GoRuntime.Returned tt s1 /\
    listeners.Register "docker" (Some 2%nat) s1 = GoRuntime.Returned tt s2 /\
    listeners.map_index (listeners.ServiceListenerFactories s1) "docker" = (Some 1%nat, true) /\
    listeners.map_index (listeners.ServiceListenerFactories s2) "docker" = (Some 2%nat, true) /\
    listeners.logged s2 = (listeners.logged s1 ++ [listeners.conflict_of "docker"])%list.
Proof.
  exact (Register_twice_overwrites "docker" 1%nat 2%nat (listeners.init [])
           (listeners.reach_init [])).
Defined.

(** A nil factory registered as "ecs" on the initial registry. *)
Lemma Register_total_witness :
  exists s' : listeners.globals nat,
    listeners.Register "ecs" None (listeners.init []) = GoRuntime.Returned tt s' /\
    listeners.reachable s' /\
    listeners.logged s' =
      (listeners.logged (listeners.init (Func := nat) []) ++
       listeners.lines_of_Register (Func := nat) (listeners.init []) "ecs" None)%list.
Proof.
  exact (Register_total "ecs" None (listeners.init []) (listeners.reach_init [])).
Defined.

(** ** The types of the package *)

Section TypeFacts.
Import GoRuntime listeners.

Lemma wrap_range (w z : Z) :
  0 < w -> - 2 ^ (w - 1) <= wrap w z < 2 ^ (w - 1).
Proof.
  intros Hw. unfold wrap.
  assert (Hp : 2 ^ w = 2 * 2 ^ (w - 1)).
  { replace w with (Z.succ (w - 1)) at 1 by lia. apply Z.pow_succ_r. lia. }
  assert (Hpos : 0 < 2 ^ (w - 1)) by (apply Z.pow_pos_nonneg; lia).
  pose proof (Z.mod_pos_bound (z + 2 ^ (w - 1)) (2 ^ w)) as Hb. lia.
Qed.

Lemma wrap_id (w z : Z) :
  0 < w -> - 2 ^ (w - 1) <= z < 2 ^ (w - 1) -> wrap w z = z.
Proof.
  intros Hw Hz. unfold wrap.
  assert (Hp : 2 ^ w = 2 * 2 ^ (w - 1)).
  { replace w with (Z.succ (w - 1)) at 1 by lia. apply Z.pow_succ_r. lia. }
  rewrite Z.mod_small; lia.
Qed.

Lemma intSize_pos (a : GOARCH) : 0 < intSize a.
Proof. destruct a; reflexivity. Qed.

(** C6, as the code has it: the field Port is an [int]. Every ContainerPort
    has its Port in the range of [int] on its platform, and every [int], a
    negative one or one above 65535 included, is the Port of a ContainerPort:
    the type keeps nothing to the range of port numbers. *)
Theorem ContainerPort_Port_is_int (a : GOARCH) (port : Z) (name : string) :
  minInt a <= Port (mkContainerPort a port name) <= maxInt a /\
  (minInt a <= port <= maxInt a -> Port (mkContainerPort a port name) = port).
Proof.
  unfold minInt, maxInt, mkContainerPort, int. cbn [Port].
  pose proof (wrap_range (intSize a) port (intSize_pos a)) as Hr.
  split; [lia|].
  intros Hp. apply wrap_id; [apply intSize_pos | lia].
Qed.

(** The port 70000 on a 64-bit platform. *)
Lemma ContainerPort_Port_is_int_witness :
  (minInt arch64 <= Port (mkContainerPort arch64 70000 "http") <= maxInt arch64) /\
  Port (mkContainerPort arch64 70000 "http") = 70000.
Proof.
  destruct (ContainerPort_Port_is_int arch64 70000 "http") as [Hr Hid].
  split; [exact Hr|]. apply Hid. unfold minInt, maxInt; cbn. lia.
Defined.

(** C6, as the claim states it, fails: composite literals of the package's
    type with a Port above 65535 and with a negative Port. *)
Lemma ContainerPort_Port_outside_port_range :
  exists c d : ContainerPort,
    c = mkContainerPort arch64 70000 "http" /\
    d = mkContainerPort arch32 (-1) "" /\
    Port c = 70000 /\ Port d = -1 /\
    ~ (0 <= Port c <= 65535) /\ ~ (0 <= Port d <= 65535).
Proof.
  eexists _, _. split; [reflexivity|]. split; [reflexivity|].
  cbn. repeat split; [vm_compute; reflexivity .. | |]; vm_compute; intros [H1 H2];
    first [now apply H1 | now apply H2].
Qed.

End TypeFacts.

(** ** The humanizers *)

Section HumanFacts.
Import GoRuntime gui.

(** The conversion yields an [int64] where it yields anything. *)
Lemma int64_of_float64_range (f : float64) (i : Z) :
  int64_of_float64 f = Some i -> minInt64 <= i <= maxInt64.
Proof.
  destruct f as [s | s | | s m e]; cbn; try discriminate.
  - intros [= <-]. unfold minInt64, maxInt64. lia.
  - destruct (_ && _) eqn:Hb; [|discriminate].
    intros [= <-]. apply andb_prop in Hb as [Hlo Hhi].
    apply Z.leb_le in Hlo, Hhi. split; assumption.
Qed.

(** The three ranges of [mkHumanInt]. *)
Lemma mkHumanInt_cases (i : Z) :
  (1000000 < i /\ mkHumanInt i = "over 1M") \/
  (100000 < i <= 1000000 /\ mkHumanInt i = "over 100K") \/
  (i <= 100000 /\ mkHumanInt i = Sprintf_d i).
Proof.
  unfold mkHumanInt.
  destruct (Z.ltb_spec 1000000 i) as [H1|H1]; [left; now split|].
  destruct (Z.ltb_spec 100000 i) as [H2|H2]; [right; left | right; right];
    (split; [lia | reflexivity]).
Qed.

Example mkHumanInt_small : mkHumanInt 4096 = "4096".
Proof. reflexivity. Qed.

Example mkHumanInt_negative : mkHumanInt (-17) = "-17".
Proof. reflexivity. Qed.

Example mkHumanInt_million : mkHumanInt 1000000 = "over 100K".
Proof. reflexivity. Qed.

Example mkHumanInt_above_million : mkHumanInt 1000001 = "over 1M".
Proof. reflexivity. Qed.

(** 2.5 is truncated to 2 and -2.5 to -2. *)
Example int64_of_float64_truncates :
  int64_of_float64 (S754_finite false 5 (-1)) = Some 2 /\
  int64_of_float64 (S754_finite true 5 (-1)) = Some (-2).
Proof. split; reflexivity. Qed.

(** 2^63 is not an [int64]. *)
Example int64_of_float64_out_of_range :
  int64_of_float64 (S754_finite false 1 63) = None.
Proof. reflexivity. Qed.

(** C9: where the conversion [int64(f)] is defined, [mkHuman(f)] is the
    string [mkHumanInt(int64(f))]. *)
Theorem mkHuman_is_mkHumanInt_of_int64 (f : float64) (i : Z) :
  int64_of_float64 f = Some i ->
  mkHuman f = Some (mkHumanInt i).
Proof.
  intros Hi. unfold mkHuman, mkHumanInt. rewrite Hi.
  destruct (1000000 <? i); [reflexivity|].
  destruct (100000 <? i); reflexivity.
Qed.

(** 1500000.5, that is 3000001 * 2^-1. *)
Lemma mkHuman_is_mkHumanInt_of_int64_witness :
  mkHuman (S754_finite false 3000001 (-1)) = Some (mkHumanInt 1500000).
Proof.
  apply (mkHuman_is_mkHumanInt_of_int64 (S754_finite false 3000001 (-1)) 1500000).
  reflexivity.
Defined.

End HumanFacts.

(** ** Rendering the status page *)

Section RenderFacts.
Import gui.
Context {Stats : Type} (make_stats : Stats).
Context (json_Unmarshal : list Byte.byte -> Stats -> Stats * errors.error).
Context {Template FuncMap : Type} (fmap : FuncMap).
Context (template_New : string -> Template).
Context (Funcs : Template -> FuncMap -> Template).
Context (ParseFiles : Template -> string -> Template * errors.error).
Context (Execute : Template -> string -> Stats -> string * errors.error).

#[local] Abbreviation fill := (fillTemplate fmap template_New Funcs ParseFiles Execute).
#[local] Abbreviation render unmarshal :=
  (renderStatus make_stats unmarshal fmap template_New Funcs ParseFiles Execute).

(** [fillTemplate] fails when the template does not parse, and otherwise as
    its execution does. *)
Lemma fillTemplate_cases (w : string) (stats : Stats) (request : string) :
  let t := Funcs (template_New (request ++ ".tmpl")) fmap in
  let parsed := ParseFiles t ("templates/" ++ request ++ ".tmpl") in
  fill w stats request =
    if errors.is_nil (snd parsed) then Execute (fst parsed) w stats
    else (w, snd parsed).
Proof.
  cbn zeta. unfold fillTemplate.
  destruct (ParseFiles _ _) as [t e]; cbn.
  now destruct (errors.is_nil e).
Qed.

(** C10: for every byte slice and request, [renderStatus] fills the template
    [request]Status over the map as [json.Unmarshal] left it, whatever error
    the unmarshalling gave: it fails exactly when [fillTemplate] fails, with
    the error of [fillTemplate] and the empty string, and otherwise returns
    what was written and a nil error. An unmarshalling that leaves the same
    map and another error (or none) gives the same result. *)
Theorem renderStatus_fails_iff_fillTemplate_fails
  (data : list Byte.byte) (request : string) :
  let stats := fst (json_Unmarshal data make_stats) in
  let filled := fill "" stats (request ++ "Status") in
  listeners.failed (render json_Unmarshal data request) = listeners.failed filled /\
  (forall e, e <> errors.nil ->
     (render json_Unmarshal data request = ("", e) <-> snd filled = e)) /\
  (snd filled = errors.nil ->
     render json_Unmarshal data request = (fst filled, errors.nil)) /\
  (forall json_Unmarshal' : list Byte.byte -> Stats -> Stats * errors.error,
     fst (json_Unmarshal' data make_stats) = stats ->
     render json_Unmarshal' data request = render json_Unmarshal data request).
Proof.
  cbn zeta. unfold renderStatus.
  destruct (json_Unmarshal data make_stats) as [stats uerr] eqn:Hu. cbn [fst].
  destruct (fill "" stats (request ++ "Status")) as [b e] eqn:Hf. cbn [fst snd].
  split; [|split; [|split]].
  - unfold listeners.failed. now destruct e.
  - intros e' He'. destruct e as [|a]; cbn.
    + split; congruence.
    + split; congruence.
  - intros ->. reflexivity.
  - intros U' HU'. destruct (U' data make_stats) as [stats' uerr'].
    cbn in HU'. subst stats'. now rewrite Hf.
Qed.

End RenderFacts.

(** A decoder that rejects every input and a template library with the one
    file [templates/generalStatus.tmpl]: the bytes of an opening brace alone
    are rendered, and no error comes back. *)
Lemma renderStatus_fails_iff_fillTemplate_fails_witness :
  gui.renderStatus (Stats := list string) (Template := string) (FuncMap := unit)
    []
    (fun _ stats => (stats, errors.errorString_at 0))
    tt
    (fun name => name)
    (fun t _ => t)
    (fun t path => if String.eqb path "templates/generalStatus.tmpl"
                   then (t, errors.nil) else (t, errors.errorString_at 1))
    (fun t w _ => (w ++ "<p>" ++ t ++ "</p>", errors.nil))
    [Byte.x7b] "general"
  = ("<p>generalStatus.tmpl</p>", errors.nil).
Proof.
  apply (proj1 (proj2 (proj2
    (renderStatus_fails_iff_fillTemplate_fails (Stats := list string)
       [] (fun _ stats => (stats, errors.errorString_at 0)) tt
       (fun name => name) (fun t _ => t)
       (fun t path => if String.eqb path "templates/generalStatus.tmpl"
                      then (t, errors.nil) else (t, errors.errorString_at 1))
       (fun t w _ => (w ++ "<p>" ++ t ++ "</p>", errors.nil))
       [Byte.x7b] "general")))).
  reflexivity.
Defined.

(** ** The order of the events of a listener *)

Section ListenerFacts.
Import listeners lifecycle.
Context {T : Type} `{Service T}.
Implicit Types (l : listener T) (stream pre post mid : list (event T)) (e : event T).

Lemma alternates_app i running pre post :
  alternates i running (pre ++ post) =
  alternates i running pre && alternates i (running_after i running pre) post.
Proof.
  revert running. induction pre as [|e pre IH]; intros running; cbn.
  - reflexivity.
  - destruct (String.eqb (event_ID e) i); [|apply IH].
    destruct (is_add e); rewrite IH; now rewrite andb_assoc.
Qed.

Lemma running_after_app i running pre post :
  running_after i running (pre ++ post) =
  running_after i (running_after i running pre) post.
Proof.
  revert running. induction pre as [|e pre IH]; intros running; cbn.
  - reflexivity.
  - destruct (String.eqb (event_ID e) i); apply IH.
Qed.

(** Events of other identifiers leave the service as it was. *)
Lemma running_after_others i running pre :
  (forall e, e ∈ pre -> event_ID e <> i) ->
  running_after i running pre = running.
Proof.
  induction pre as [|e pre IH]; intros Hpre; cbn; [reflexivity|].
  destruct (String.eqb_spec (event_ID e) i) as [Heq|_].
  - exfalso. apply (Hpre e); [left | exact Heq].
  - apply IH. intros e' He'. apply Hpre. now right.
Qed.

(** A service that was not running and is running after a stream was added
    in it. *)
Lemma running_after_true i pre :
  running_after i false pre = true ->
  exists a, a ∈ pre /\ event_ID a = i /\ is_add a = true.
Proof.
  induction pre as [|e pre IH] using rev_ind; cbn; [discriminate|].
  rewrite running_after_app. cbn.
  destruct (String.eqb_spec (event_ID e) i) as [Heq|_].
  - intros Hadd. exists e. split; [|now split].
    apply elem_of_app. right. left.
  - intros Hrun. destruct (IH Hrun) as (a & Ha & Hid & Hadd).
    exists a. split; [|now split]. apply elem_of_app. now left.
Qed.

(** A service that was running and is not after a stream was deleted in it. *)
Lemma running_after_false i mid :
  running_after i true mid = false ->
  exists d, d ∈ mid /\ event_ID d = i /\ is_add d = false.
Proof.
  induction mid as [|e mid IH] using rev_ind; cbn; [discriminate|].
  rewrite running_after_app. cbn.
  destruct (String.eqb_spec (event_ID e) i) as [Heq|_].
  - intros Hdel. exists e. split; [|now split].
    apply elem_of_app. right. left.
  - intros Hrun. destruct (IH Hrun) as (d & Hd & Hid & Hdel).
    exists d. split; [|now split]. apply elem_of_app. now left.
Qed.

(** What the alternation of a stream says at one of its events. *)
Lemma alternates_at i stream pre e post :
  alternates i false stream = true ->
  stream = (pre ++ e :: post)%list -> event_ID e = i ->
  is_add e = negb (running_after i false pre) /\
  alternates i (is_add e) post = true.
Proof.
  intros Halt -> Hid. rewrite alternates_app in Halt.
  apply andb_prop in Halt as [_ Halt]. cbn in Halt.
  rewrite <- Hid in Halt at 1. rewrite String.eqb_refl in Halt.
  destruct (is_add e), (running_after i false pre); cbn in Halt;
    try discriminate; now split.
Qed.

Lemma alternates_first_is_add i stream :
  alternates i false stream = true -> first_is_add stream i.
Proof.
  intros Halt pre e post Hs Hid Hpre.
  destruct (alternates_at _ _ _ _ _ Halt Hs Hid) as [-> _].
  now rewrite running_after_others.
Qed.

Lemma alternates_delete_follows_add i stream :
  alternates i false stream = true -> delete_follows_add stream i.
Proof.
  intros Halt pre e post Hs Hid Hdel.
  destruct (alternates_at _ _ _ _ _ Halt Hs Hid) as [Hrun _].
  apply running_after_true. rewrite Hdel in Hrun.
  now destruct (running_after i false pre).
Qed.

Lemma alternates_delete_between_adds i stream :
  alternates i false stream = true -> delete_between_adds stream i.
Proof.
  intros Halt pre a1 mid a2 post Hs Hid1 Hadd1 Hid2 Hadd2.
  destruct (alternates_at _ _ _ _ _ Halt Hs Hid1) as [_ Hrest].
  rewrite Hadd1, alternates_app in Hrest.
  apply andb_prop in Hrest as [_ Hrest]. cbn in Hrest.
  rewrite <- Hid2 in Hrest at 1. rewrite String.eqb_refl, Hadd2 in Hrest.
  apply running_after_false.
  now destruct (running_after i true mid).
Qed.

Lemma tracks_new : tracks new_listener [].
Proof.
  split; [intros i svc; cbn; now rewrite lookup_empty|].
  intros i. cbn. split; [reflexivity|].
  rewrite lookup_empty. symmetry. apply bool_decide_eq_false.
  intros [x Hx]. discriminate.
Qed.

(** One call keeps the cache and the stream together. *)
Lemma step_tracks l c l' out pre :
  tracks l pre -> step l c = (l', out) -> tracks l' (pre ++ out).
Proof.
  intros [Hkeys Hrun] Hstep.
  assert (Hsame : forall ph, tracks {| at_phase := ph; cache := cache l |} (pre ++ [])).
  { intros ph. rewrite app_nil_r. now split. }
  assert (Hl : tracks l (pre ++ [])) by (rewrite app_nil_r; now split).
  destruct c as [| |[svc|j]]; cbn in Hstep.
  - destruct (at_phase l); injection Hstep as <- <-; auto.
  - injection Hstep as <- <-. auto.
  - destruct (at_phase l); try (injection Hstep as <- <-; exact Hl).
    destruct (cache l !! GetID svc) as [old|] eqn:Hc;
      injection Hstep as <- <-; [exact Hl|].
    split; cbn.
    + intros i svc'. destruct (decide (GetID svc = i)) as [<-|Hne].
      * rewrite lookup_insert_eq. now intros [= <-].
      * rewrite lookup_insert_ne by exact Hne. apply Hkeys.
    + intros i. destruct (Hrun i) as [Halt Hafter].
      rewrite alternates_app, running_after_app, Halt, Hafter. cbn.
      destruct (String.eqb_spec (GetID svc) i) as [<-|Hne].
      * rewrite Hc, lookup_insert_eq.
        rewrite (bool_decide_eq_false_2 (is_Some None)) by (intros [x Hx]; discriminate).
        split; [reflexivity|]. symmetry. apply bool_decide_eq_true. eauto.
      * now rewrite lookup_insert_ne by exact Hne.
  - destruct (at_phase l); try (injection Hstep as <- <-; exact Hl).
    destruct (cache l !! j) as [svc|] eqn:Hc;
      injection Hstep as <- <-; [|exact Hl].
    pose proof (Hkeys _ _ Hc) as Hid.
    split; cbn.
    + intros i svc'. destruct (decide (j = i)) as [<-|Hne].
      * rewrite lookup_delete_eq. discriminate.
      * rewrite lookup_delete_ne by exact Hne. apply Hkeys.
    + intros i. destruct (Hrun i) as [Halt Hafter].
      rewrite alternates_app, running_after_app, Halt, Hafter. cbn.
      rewrite Hid.
      destruct (String.eqb_spec j i) as [<-|Hne].
      * rewrite Hc, lookup_delete_eq.
        rewrite (bool_decide_eq_true_2 (is_Some (Some svc))) by eauto.
        split; [reflexivity|]. symmetry. apply bool_decide_eq_false.
        intros [x Hx]. discriminate.
      * now rewrite lookup_delete_ne by exact Hne.
Qed.

(** So does every sequence of calls. *)
Lemma run_tracks cs : forall l l' out pre,
  tracks l pre -> run l cs = (l', out) -> tracks l' (pre ++ out).
Proof.
  induction cs as [|c cs IH]; intros l l' out pre Hl Hrun; cbn in Hrun.
  - injection Hrun as <- <-. now rewrite app_nil_r.
  - destruct (step l c) as [l1 out1] eqn:Hstep.
    destruct (run l1 cs) as [l2 out2] eqn:Hrest.
    injection Hrun as <- <-. rewrite app_assoc.
    eapply IH; [|exact Hrest]. eapply step_tracks; eauto.
Qed.

Lemma event_stream_alternates cs i :
  alternates i false (event_stream cs) = true.
Proof.
  unfold event_stream.
  destruct (run new_listener cs) as [l out] eqn:Hrun.
  destruct (run_tracks cs _ _ _ [] tracks_new Hrun) as [_ Halt].
  apply Halt.
Qed.

(** C3, for the listener modelled after the spec: whatever its back end
    reports and whenever it is started and stopped, in the stream of its
    sends the first event of an identifier is an add event, every delete
    event of the identifier has an add event of it before, and between two
    add events of the identifier there is a delete event of it. *)
Theorem event_stream_add_before_delete (cs : list (call T)) (i : ID) :
  first_is_add (event_stream cs) i /\
  delete_follows_add (event_stream cs) i /\
  delete_between_adds (event_stream cs) i.
Proof.
  pose proof (event_stream_alternates cs i) as Halt.
  split; [|split].
  - now apply alternates_first_is_add.
  - now apply alternates_delete_follows_add.
  - now apply alternates_delete_between_adds.
Qed.

End ListenerFacts.

Example event_stream_of_a_run :
  let S := listeners.nothing_known errors.nil in
  lifecycle.event_stream
    [lifecycle.Notify (lifecycle.appeared "a"); lifecycle.Listen;
     lifecycle.Notify (lifecycle.appeared "a"); lifecycle.Notify (lifecycle.appeared "a");
     lifecycle.Notify (lifecycle.disappeared "b"); lifecycle.Notify (lifecycle.disappeared "a");
     lifecycle.Notify (lifecycle.appeared "a"); lifecycle.Stop;
     lifecycle.Notify (lifecycle.appeared "c")]
  = [lifecycle.on_newSvc "a"; lifecycle.on_delSvc "a"; lifecycle.on_newSvc "a"].
Proof. vm_compute. reflexivity. Qed.

(** ** The sentinel *)

Section SentinelFacts.
Import GoRuntime listeners.
Context {Func : Type}.
Implicit Types (s : globals Func).

(** [errors.New] returns an error that no error made before is, and that
    has the text given. *)
Lemma New_fresh (text : string) (h : errors.heap) (a : nat) :
  (a < length h)%nat ->
  errors.error_eqb (fst (errors.New text h)) (errors.errorString_at a) = false /\
  errors.Error (fst (errors.New text h)) (snd (errors.New text h)) = Some text /\
  errors.Error (errors.errorString_at a) (snd (errors.New text h)) =
    errors.Error (errors.errorString_at a) h.
Proof.
  intros Ha. unfold errors.New, errors.Error, errors.error_eqb. cbn [fst snd].
  split; [|split].
  - apply Nat.eqb_neq. lia.
  - now apply list_lookup_middle.
  - now apply lookup_app_l.
Qed.

(** The variable holds, in every state of the package, the error that the
    initialisation made, and its object is there with its text. *)
Lemma reachable_sentinel s :
  reachable s ->
  exists a, ErrNotSupported s = errors.errorString_at a /\
            (a < length (objects s))%nat /\
            objects s !! a = Some not_supported_text.
Proof.
  induction 1 as [h | s name factory s' Hs (a & He & Ha & Ht) Hstep].
  - exists (length h). unfold init, errors.New. cbn [ErrNotSupported objects].
    split; [reflexivity|]. split.
    + rewrite length_app. cbn. lia.
    + now apply list_lookup_middle.
  - destruct (reachable_map s Hs) as [g Hg].
    rewrite (Register_on_map _ _ _ _ Hg) in Hstep.
    injection Hstep as <-. cbn. eauto.
Qed.

(** X18: in every state of the package ErrNotSupported is not nil and has
    its text, and [Register] leaves it as it is; it is told by [==] and not
    by its text: an error made later by [errors.New] with the same text reads
    the same and is another error under [==]. *)
Theorem ErrNotSupported_identity_not_text s :
  reachable s ->
  errors.is_nil (ErrNotSupported s) = false /\
  errors.Error (ErrNotSupported s) (objects s) = Some not_supported_text /\
  errors.error_eqb (ErrNotSupported s) (ErrNotSupported s) = true /\
  (forall name factory s',
     Register name factory s = Returned tt s' -> ErrNotSupported s' = ErrNotSupported s) /\
  (forall e' h',
     errors.New not_supported_text (objects s) = (e', h') ->
     errors.Error e' h' = errors.Error (ErrNotSupported s) h' /\
     errors.error_eqb e' (ErrNotSupported s) = false).
Proof.
  intros Hs. destruct (reachable_sentinel s Hs) as (a & He & Ha & Ht).
  rewrite He. split; [reflexivity|]. split; [exact Ht|].
  split; [apply Nat.eqb_refl|]. split.
  - intros name factory s' Hstep.
    destruct (reachable_map s Hs) as [g Hg].
    rewrite (Register_on_map _ _ _ _ Hg) in Hstep.
    injection Hstep as <-. cbn. now symmetry.
  - intros e' h' Hnew.
    destruct (New_fresh not_supported_text (objects s) a Ha) as (Hne & Htext & Hold).
    rewrite Hnew in Hne, Htext, Hold. cbn [fst snd] in *.
    split; [|exact Hne].
    rewrite Htext, Hold. cbn. now rewrite Ht.
Qed.

End SentinelFacts.

(** The package as initialised on an empty heap. *)
Lemma ErrNotSupported_identity_not_text_witness :
  let s := listeners.init (Func := nat) [] in
  errors.is_nil (listeners.ErrNotSupported s) = false /\
  errors.Error (listeners.ErrNotSupported s) (listeners.objects s) =
    Some listeners.not_supported_text /\
  errors.error_eqb (listeners.ErrNotSupported s) (listeners.ErrNotSupported s) = true /\
  (forall name factory s',
     listeners.Register name factory s = GoRuntime.Returned tt s' ->
     listeners.ErrNotSupported s' = listeners.ErrNotSupported s) /\
  (forall e' h',
     errors.New listeners.not_supported_text (listeners.objects s) = (e', h') ->
     errors.Error e' h' = errors.Error (listeners.ErrNotSupported s) h' /\
     errors.error_eqb e' (listeners.ErrNotSupported s) = false).
Proof.
  exact (ErrNotSupported_identity_not_text (listeners.init []) (listeners.reach_init [])).
Defined.

(** ** The string functions of the library *)

Section GoStringsFacts.
Import GoStrings.
Implicit Types (s t u old new p q : string) (c d : ascii).

Lemma append_cons c s t : String c s ++ t = String c (s ++ t).
Proof. reflexivity. Qed.

Lemma append_empty_r s : s ++ "" = s.
Proof. induction s as [|c s IH]; [reflexivity|]. now rewrite append_cons, IH. Qed.

Lemma append_assoc s t u : (s ++ t) ++ u = s ++ (t ++ u).
Proof.
  induction s as [|c s IH]; [reflexivity|]. now rewrite !append_cons, IH.
Qed.

Lemma HasPrefix_empty s : HasPrefix s "" = true.
Proof. now destruct s. Qed.

Lemma HasPrefix_cons c d s p :
  HasPrefix (String d s) (String c p) = Ascii.eqb c d && HasPrefix s p.
Proof.
  unfold HasPrefix. cbn. destruct (ascii_dec c d) as [->|Hne].
  - now rewrite Ascii.eqb_refl.
  - apply Ascii.eqb_neq in Hne. now rewrite Hne.
Qed.

Lemma HasPrefix_of_empty p : HasPrefix "" p = true -> p = "".
Proof. now destruct p. Qed.

Lemma HasPrefix_append s p : HasPrefix (p ++ s) p = true.
Proof.
  induction p as [|c p IH]; [apply HasPrefix_empty|].
  now rewrite append_cons, HasPrefix_cons, Ascii.eqb_refl.
Qed.

Lemma HasPrefix_split s p : HasPrefix s p = true -> s = p ++ drop (String.length p) s.
Proof.
  revert s. induction p as [|c p IH]; intros s Hp; cbn; [reflexivity|].
  destruct s as [|d s]; [discriminate|].
  rewrite HasPrefix_cons in Hp. apply andb_prop in Hp as [Hc Hp].
  apply Ascii.eqb_eq in Hc as ->. cbn [String.length drop].
  rewrite append_cons. f_equal. now apply IH.
Qed.

Lemma Index_lower s p : -1 <= Index s p.
Proof.
  induction s as [|c s IH]; cbn [Index].
  - destruct (HasPrefix "" p); lia.
  - destruct (HasPrefix (String c s) p); [lia|].
    destruct (Z.ltb_spec (Index s p) 0); lia.
Qed.

Lemma Index_upper s p : Index s p <= len s.
Proof.
  unfold len. induction s as [|c s IH]; cbn [Index String.length].
  - destruct (HasPrefix "" p); lia.
  - destruct (HasPrefix (String c s) p); [lia|].
    destruct (Z.ltb_spec (Index s p) 0); lia.
Qed.

Lemma Contains_empty p : Contains "" p = HasPrefix "" p.
Proof. unfold Contains. cbn [Index]. now destruct (HasPrefix "" p). Qed.

Lemma Contains_cons c s p :
  Contains (String c s) p = HasPrefix (String c s) p || Contains s p.
Proof.
  unfold Contains. cbn [Index].
  destruct (HasPrefix (String c s) p); [reflexivity|]. cbn [orb].
  pose proof (Index_lower s p).
  destruct (Z.ltb_spec (Index s p) 0), (Z.leb_spec 0 (Index s p));
    first [lia | reflexivity | apply Z.leb_le; lia].
Qed.

Lemma has_byte_append c s t : has_byte c (s ++ t) = has_byte c s || has_byte c t.
Proof.
  induction s as [|d s IH]; [reflexivity|].
  rewrite append_cons. cbn. now rewrite IH, orb_assoc.
Qed.

(** Looking for one byte is looking for the string of it. *)
Lemma Contains_byte c s : Contains s (String c "") = has_byte c s.
Proof.
  induction s as [|d s IH].
  - reflexivity.
  - rewrite Contains_cons, HasPrefix_cons, HasPrefix_empty, IH.
    cbn. now rewrite andb_true_r.
Qed.

(** A string holds the bytes of what it holds. *)
Lemma HasPrefix_has_byte c s p :
  HasPrefix s p = true -> has_byte c p = true -> has_byte c s = true.
Proof.
  intros Hp Hc. rewrite (HasPrefix_split _ _ Hp), has_byte_append, Hc. reflexivity.
Qed.

Lemma Contains_has_byte c s p :
  Contains s p = true -> has_byte c p = true -> has_byte c s = true.
Proof.
  intros Hs Hc. induction s as [|d s IH].
  - rewrite Contains_empty in Hs. apply HasPrefix_of_empty in Hs. now subst p.
  - rewrite Contains_cons in Hs. apply orb_prop in Hs as [Hp|Hs].
    + now apply (HasPrefix_has_byte c _ p).
    + cbn. rewrite (IH Hs). apply orb_true_r.
Qed.

(** Passing over [k] bytes of an occurrence is scanning on after them. *)
Lemma replace_from_skip old new k s :
  replace_from old new k s = replace_from old new 0 (drop k s).
Proof.
  revert k. induction s as [|c s IH]; intros [|k]; cbn; try reflexivity.
  apply IH.
Qed.

Lemma Replace_empty old new : Replace "" old new = "".
Proof. reflexivity. Qed.

Lemma Replace_miss c s old new :
  HasPrefix (String c s) old = false ->
  Replace (String c s) old new = String c (Replace s old new).
Proof. intros Hp. unfold Replace. cbn [replace_from]. now rewrite Hp. Qed.

Lemma Replace_hit s old new :
  old <> "" -> HasPrefix s old = true ->
  Replace s old new = new ++ Replace (drop (String.length old) s) old new.
Proof.
  intros Hold Hp. unfold Replace.
  destruct s as [|c s]; [apply HasPrefix_of_empty in Hp; contradiction|].
  cbn [replace_from]. rewrite Hp, replace_from_skip.
  destruct old as [|o old]; [contradiction|]. cbn. now rewrite Nat.sub_0_r.
Qed.

(** Where the pattern does not occur, [Replace] returns its string. *)
Lemma Replace_unchanged s old new :
  Contains s old = false -> Replace s old new = s.
Proof.
  induction s as [|c s IH]; intros Hs; [reflexivity|].
  rewrite Contains_cons in Hs. apply orb_false_elim in Hs as [Hp Hs].
  now rewrite Replace_miss, IH.
Qed.

(** The bytes of the result are bytes of the string or of [new]. *)
Lemma replace_from_bytes c old new k s :
  has_byte c (replace_from old new k s) = true ->
  has_byte c s = true \/ has_byte c new = true.
Proof.
  revert k. induction s as [|d s IH]; intros k; cbn [replace_from].
  - discriminate.
  - destruct k as [|k].
    + destruct (HasPrefix (String d s) old).
      * rewrite has_byte_append. intros [Hn|Hr]%orb_prop; [now right|].
        destruct (IH _ Hr) as [Hs|Hn]; [left|now right].
        cbn. rewrite Hs. apply orb_true_r.
      * cbn. intros [Hd|Hr]%orb_prop; [left; cbn; now rewrite Hd|].
        destruct (IH _ Hr) as [Hs|Hn]; [left|now right].
        cbn. rewrite Hs. apply orb_true_r.
    + intros Hr. destruct (IH _ Hr) as [Hs|Hn]; [left|now right].
      cbn. rewrite Hs. apply orb_true_r.
Qed.

Lemma Replace_bytes c s old new :
  has_byte c s = false -> has_byte c new = false ->
  has_byte c (Replace s old new) = false.
Proof.
  intros Hs Hn. destruct (has_byte c (Replace s old new)) eqn:Hr; [|reflexivity].
  destruct (replace_from_bytes _ _ _ _ _ Hr); congruence.
Qed.

Lemma apart_tail_l c p t : apart (String c p) t -> apart p t.
Proof. intros H d Hd. apply H. cbn. rewrite Hd. apply orb_true_r. Qed.

Lemma apart_tail_r c p t : apart p (String c t) -> apart p t.
Proof.
  intros H d Hd. specialize (H d Hd). cbn in H.
  now apply orb_false_elim in H as [_ H].
Qed.

Lemma apart_heads c d p t : apart (String c p) (String d t) -> Ascii.eqb c d = false.
Proof.
  intros H. specialize (H c). cbn in H. rewrite Ascii.eqb_refl in H.
  specialize (H eq_refl). now apply orb_false_elim in H as [H _].
Qed.

(** Putting [new] before a string brings no occurrence of a pattern that
    shares no byte with it. *)
Lemma Contains_after_new new t old :
  old <> "" -> apart old new ->
  Contains t old = false -> Contains (new ++ t) old = false.
Proof.
  intros Hold Hap Ht. induction new as [|d new IH]; [exact Ht|].
  rewrite append_cons, Contains_cons, (IH (apart_tail_r _ _ _ Hap)), orb_false_r.
  destruct old as [|o old]; [contradiction|].
  now rewrite HasPrefix_cons, (apart_heads _ _ _ _ Hap).
Qed.

(** What the result starts with, the string started with, as far as it
    shares no byte with [new]. *)
Lemma HasPrefix_Replace s old new q :
  new <> "" -> apart q new ->
  HasPrefix (Replace s old new) q = true -> HasPrefix s q = true.
Proof.
  intros Hnew. revert s. induction q as [|d q IH]; intros s Hap Hq.
  - apply HasPrefix_empty.
  - destruct s as [|c s]; [discriminate|].
    destruct (HasPrefix (String c s) old) eqn:Hhit.
    + exfalso. unfold Replace in Hq. cbn [replace_from] in Hq. rewrite Hhit in Hq.
      destruct new as [|n new]; [contradiction|].
      rewrite append_cons, HasPrefix_cons in Hq.
      now rewrite (apart_heads _ _ _ _ Hap) in Hq.
    + rewrite Replace_miss, HasPrefix_cons in Hq by exact Hhit.
      apply andb_prop in Hq as [Hd Hq].
      rewrite HasPrefix_cons, Hd. cbn.
      apply IH; [|exact Hq]. exact (apart_tail_l _ _ _ Hap).
Qed.

Lemma replace_from_removes old new k s :
  old <> "" -> new <> "" -> apart old new ->
  Contains (replace_from old new k s) old = false.
Proof.
  intros Hold Hnew Hap. revert k.
  induction s as [|c s IH]; intros k; cbn [replace_from].
  - rewrite Contains_empty. destruct old; [contradiction|reflexivity].
  - destruct k as [|k]; [|apply IH].
    destruct (HasPrefix (String c s) old) eqn:Hhit.
    + apply Contains_after_new; auto.
    + rewrite Contains_cons, IH, orb_false_r.
      destruct (HasPrefix (String c (replace_from old new 0 s)) old) eqn:Hp;
        [|reflexivity].
      rewrite <- Hhit. symmetry.
      apply (HasPrefix_Replace _ old new); auto.
      now rewrite Replace_miss.
Qed.

(** After [Replace] the pattern occurs nowhere, when [new] is not empty and
    shares no byte with it. *)
Lemma Replace_removes s old new :
  old <> "" -> new <> "" -> apart old new ->
  Contains (Replace s old new) old = false.
Proof. intros. now apply replace_from_removes. Qed.

End GoStringsFacts.

(** ** The functions of the templates *)

Section TemplateFunctionFacts.
Import GoStrings gui.
Context (json_Unmarshal_maps :
           list Byte.byte -> list (option (gmap string string)) * errors.error).
Context (json_Unmarshal_strings : list Byte.byte -> list string * errors.error).

Lemma spaces_apart_nbsp3 : apart "  " nbsp3.
Proof.
  intros c Hc. cbn in Hc. rewrite orb_false_r, orb_diag in Hc.
  apply Ascii.eqb_eq in Hc as ->. reflexivity.
Qed.

Lemma newline_apart_br : apart newline "<br>".
Proof.
  intros c Hc. cbn in Hc. rewrite orb_false_r in Hc.
  apply Ascii.eqb_eq in Hc as ->. reflexivity.
Qed.

(** A pattern with a byte that the string does not have does not occur. *)
Lemma Contains_missing_byte c s p :
  has_byte c s = false -> has_byte c p = true -> Contains s p = false.
Proof.
  intros Hs Hp. destruct (Contains s p) eqn:Hc; [|reflexivity].
  now rewrite (Contains_has_byte c s p Hc Hp) in Hs.
Qed.

(** X10: The page never shows two spaces in a row: the last replacement of
    [pythonLoaderError] leaves none, whatever the five before it did. *)
Theorem pythonLoaderError_no_double_space (value : string) :
  Contains (pythonLoaderError json_Unmarshal_strings value) "  " = false.
Proof.
  unfold pythonLoaderError.
  destruct (json_Unmarshal_strings _) as [loaderErrorArray e].
  apply Replace_removes; [discriminate | discriminate | exact spaces_apart_nbsp3].
Qed.

(** X12: A value with no single quote, no backslash followed by n and no two
    spaces in a row comes back from [pythonLoaderError] as it is. *)
Theorem pythonLoaderError_plain (value : string) :
  has_byte "'" value = false ->
  Contains value "\n" = false ->
  Contains value "  " = false ->
  pythonLoaderError json_Unmarshal_strings value = value.
Proof.
  intros Hq Hn Hsp. unfold pythonLoaderError.
  rewrite (Replace_unchanged value "', '")
    by (apply (Contains_missing_byte "'"); [exact Hq | reflexivity]).
  rewrite (Replace_unchanged value "['")
    by (apply (Contains_missing_byte "'"); [exact Hq | reflexivity]).
  rewrite (Replace_unchanged value "\n']")
    by (apply (Contains_missing_byte "'"); [exact Hq | reflexivity]).
  rewrite (Replace_unchanged value "']")
    by (apply (Contains_missing_byte "'"); [exact Hq | reflexivity]).
  rewrite (Replace_unchanged value "\n") by exact Hn.
  rewrite (Replace_unchanged value "  ") by exact Hsp.
  now destruct (json_Unmarshal_strings _).
Qed.

(** X13: [lastErrorTraceback] gives a text with no line feed and no two spaces in
    a row, or it panics, which it does exactly when the unmarshalling gave no
    error and a first element that is the nil map. *)
Theorem lastErrorTraceback_cases (value : string) :
  match lastErrorTraceback json_Unmarshal_maps value with
  | Done html => Contains html newline = false /\ Contains html "  " = false
  | Panics _ =>
      exists rest,
        json_Unmarshal_maps (list_byte_of_string value) = (None :: rest, errors.nil)
  | OutOfFuel => False
  end /\
  (forall rest,
     json_Unmarshal_maps (list_byte_of_string value) = (None :: rest, errors.nil) ->
     exists why, lastErrorTraceback json_Unmarshal_maps value = Panics why).
Proof.
  unfold lastErrorTraceback.
  destruct (json_Unmarshal_maps _) as [lastErrorArray err]. split.
  - destruct err as [|a]; cbn [errors.is_nil errors.error_eqb negb orb];
      [|split; reflexivity].
    destruct lastErrorArray as [|[first|] rest]; cbn [length];
      [split; reflexivity| |].
    + replace (Z.of_nat (S (length rest)) =? 0) with false
        by (symmetry; apply Z.eqb_neq; lia).
      unfold map_at. rewrite !lookup_insert_eq. cbn [default]. split.
      * unfold newline. rewrite Contains_byte. apply Replace_bytes; [|reflexivity].
        rewrite <- Contains_byte.
        apply (Replace_removes _ newline "<br>");
          [discriminate | discriminate | exact newline_apart_br].
      * apply Replace_removes; [discriminate | discriminate | exact spaces_apart_nbsp3].
    + replace (Z.of_nat (S (length rest)) =? 0) with false
        by (symmetry; apply Z.eqb_neq; lia).
      eauto.
  - intros rest [= -> ->]. cbn. eauto.
Qed.

(** X14: The two functions on the edges of their input. After an error of the
    unmarshalling or an empty array they give their fixed texts. On a first
    element without the key they differ: [lastErrorMessage] gives its fixed
    text for a map without "message" (and for the nil map), while
    [lastErrorTraceback] gives the empty text, not "No traceback", for a map
    without "traceback". A message that is there is returned as it is. *)
Theorem lastError_on_missing_data (value : string) :
  let array := fst (json_Unmarshal_maps (list_byte_of_string value)) in
  let err := snd (json_Unmarshal_maps (list_byte_of_string value)) in
  (errors.is_nil err = false \/ array = [] ->
   lastErrorMessage json_Unmarshal_maps value = "UNKNOWN ERROR" /\
   lastErrorTraceback json_Unmarshal_maps value = Done "No traceback") /\
  (forall g rest,
     errors.is_nil err = true -> array = Some g :: rest ->
     lastErrorMessage json_Unmarshal_maps value = default "UNKNOWN ERROR" (g !! "message") /\
     (g !! "traceback" = None ->
      lastErrorTraceback json_Unmarshal_maps value = Done "")) /\
  (forall rest,
     errors.is_nil err = true -> array = None :: rest ->
     lastErrorMessage json_Unmarshal_maps value = "UNKNOWN ERROR").
Proof.
  cbn zeta. unfold lastErrorMessage, lastErrorTraceback.
  destruct (json_Unmarshal_maps _) as [array err]. cbn [fst snd].
  split; [|split].
  - intros [Herr | ->].
    + rewrite Herr. split; reflexivity.
    + cbn. rewrite andb_false_r, orb_true_r. split; reflexivity.
  - intros g rest Herr ->. rewrite Herr. cbn [length negb orb andb].
    replace (Z.of_nat (S (length rest)) =? 0) with false
      by (symmetry; apply Z.eqb_neq; lia).
    replace (0 <? Z.of_nat (S (length rest))) with true
      by (symmetry; apply Z.ltb_lt; lia).
    split; [now destruct (g !! "message")|].
    intros Hno. unfold map_at. rewrite !lookup_insert_eq, Hno. reflexivity.
  - intros rest Herr ->. rewrite Herr. cbn [length andb].
    now destruct (0 <? Z.of_nat (S (length rest))).
Qed.

End TemplateFunctionFacts.

(** ** Titles *)

Section SliceFacts.
Import GoStrings.
Implicit Types (s : string) (n : nat).

Lemma take_drop n s : take n s ++ drop n s = s.
Proof.
  revert s. induction n as [|n IH]; intros [|c s]; cbn; try reflexivity.
  now rewrite append_cons, IH.
Qed.

Lemma length_drop n s : String.length (drop n s) = (String.length s - n)%nat.
Proof. revert s. induction n as [|n IH]; intros [|c s]; cbn; auto with arith. Qed.

Lemma take_all s : take (String.length s) s = s.
Proof. induction s as [|c s IH]; cbn; [reflexivity|]. now rewrite IH. Qed.

Lemma drop_all s : drop (String.length s) s = "".
Proof. induction s as [|c s IH]; cbn; [reflexivity|]. exact IH. Qed.

(** Joining with no separator at the head of a list. *)
Lemma concat_empty_cons (w : string) (ws : list string) :
  String.concat "" (w :: ws) = w ++ String.concat "" ws.
Proof. destruct ws; cbn; [now rewrite append_empty_r | reflexivity]. Qed.

Lemma Join_cons (w : string) (ws : list string) (sep : string) :
  ws <> [] -> Join (w :: ws) sep = w ++ sep ++ Join ws sep.
Proof. destruct ws; [contradiction | reflexivity]. Qed.

End SliceFacts.

Section TitleFacts.
Import GoStrings gui.
Context (IndexFunc_IsUpper : string -> Z).
Context (Title : string -> string).
Implicit Types (s title : string) (words ws : list string).

(** With enough turns, the loop ends without a panic, and its words are not
    empty and make up the string. *)
Lemma camel_words_partition (fuel : nat) :
  IndexFunc_in_range IndexFunc_IsUpper ->
  forall s words,
    (String.length s <= fuel)%nat ->
    exists ws,
      camel_words IndexFunc_IsUpper fuel s words = Done (words ++ ws)%list /\
      String.concat "" ws = s /\
      Forall (fun w => w <> "") ws.
Proof.
  intros Hrange. induction fuel as [|fuel IH]; intros s words Hlen.
  - destruct s; [|cbn in Hlen; lia].
    exists []. cbn. now rewrite app_nil_r.
  - destruct s as [|c s1].
    { exists []. cbn. now rewrite app_nil_r. }
    cbn [camel_words].
    set (l0 := IndexFunc_IsUpper s1 + 1).
    set (l := if l0 <=? 0 then len (String c s1) else l0).
    assert (Hl : 1 <= l <= len (String c s1)).
    { pose proof (Hrange s1) as Hr. unfold l, l0, len in *. cbn [String.length].
      destruct (Z.leb_spec (IndexFunc_IsUpper s1 + 1) 0); lia. }
    replace (len (String c s1) <? l) with false by (symmetry; apply Z.ltb_ge; lia).
    destruct (Z.to_nat l) as [|n] eqn:Hn; [lia|].
    destruct (IH (drop (S n) (String c s1))
                (words ++ [take (S n) (String c s1)])%list) as (ws & Hrun & Hcat & Hne).
    { rewrite length_drop. cbn [String.length] in *. lia. }
    exists (take (S n) (String c s1) :: ws). split; [|split].
    + rewrite Hrun. now rewrite <- app_assoc.
    + rewrite concat_empty_cons, Hcat. apply take_drop.
    + constructor; [discriminate | exact Hne].
Qed.

(** X8: [formatTitle] returns for every title, and but for "os" its result is
    the library's [Title] of words, joined by spaces, that are not empty and
    that make up the title, byte for byte. *)
Theorem formatTitle_keeps_every_byte (title : string) :
  IndexFunc_in_range IndexFunc_IsUpper ->
  exists words,
    camel_words IndexFunc_IsUpper (String.length title) title [] = Done words /\
    String.concat "" words = title /\
    Forall (fun w => w <> "") words /\
    formatTitle IndexFunc_IsUpper Title title =
      Done (if String.eqb title "os" then "OS" else Title (Join words " ")).
Proof.
  intros Hrange.
  destruct (camel_words_partition (String.length title) Hrange title [] (le_n _))
    as (ws & Hrun & Hcat & Hne).
  exists ws. cbn [app] in Hrun. repeat split; try assumption.
  unfold formatTitle. rewrite Hrun. now destruct (String.eqb title "os").
Qed.

(** The search for a letter A to Z: none, and then the string has no space
    to take; or the place of the first, with none before it. *)
Lemma index_upper_ascii_cases s :
  (index_upper_ascii s = -1 /\ space_before_upper s = s) \/
  (exists (i : nat) u r,
     index_upper_ascii s = Z.of_nat i /\ (i < String.length s)%nat /\
     drop i s = String u r /\ is_upper_ascii u = true /\
     space_before_upper (take i s) = take i s).
Proof.
  induction s as [|c s IH]; [left; split; reflexivity|].
  cbn [index_upper_ascii space_before_upper].
  destruct (is_upper_ascii c) eqn:Hc.
  - right. exists 0%nat, c, s. cbn. repeat split; auto with arith.
  - destruct IH as [[Hi Hs] | (i & u & r & Hi & Hlt & Hd & Hu & Ht)].
    + left. rewrite Hi, Hs. split; reflexivity.
    + right. exists (S i), u, r. rewrite Hi.
      replace (Z.of_nat i <? 0) with false by (symmetry; apply Z.ltb_ge; lia).
      cbn [String.length drop take space_before_upper]. rewrite Hc, Ht.
      repeat split; auto with arith. lia.
Qed.

Lemma index_upper_ascii_in_range : IndexFunc_in_range index_upper_ascii.
Proof.
  intros s. unfold len.
  destruct (index_upper_ascii_cases s) as [[-> _] | (i & u & r & -> & Hlt & _)]; lia.
Qed.

Lemma space_before_upper_append s t :
  space_before_upper (s ++ t) = space_before_upper s ++ space_before_upper t.
Proof.
  induction s as [|c s IH]; [reflexivity|].
  rewrite append_cons. cbn [space_before_upper].
  destruct (is_upper_ascii c); now rewrite !append_cons, IH.
Qed.

Lemma is_ascii_drop (n : nat) s : is_ascii s = true -> is_ascii (drop n s) = true.
Proof.
  revert s. induction n as [|n IH]; intros [|c s]; cbn; auto.
  intros [_ Hs]%andb_prop. now apply IH.
Qed.

(** On a title of bytes below 128 the words of the loop, joined by spaces,
    are the title with a space before each letter A to Z but a first one. *)
Lemma camel_words_spaced (fuel : nat) :
  IndexFunc_on_ascii IndexFunc_IsUpper ->
  forall s words,
    (String.length s <= fuel)%nat -> is_ascii s = true ->
    exists ws,
      camel_words IndexFunc_IsUpper fuel s words = Done (words ++ ws)%list /\
      Join ws " " = spaced s.
Proof.
  intros Hascii. induction fuel as [|fuel IH]; intros s words Hlen Hs.
  - destruct s; [|cbn in Hlen; lia].
    exists []. cbn. now rewrite app_nil_r.
  - destruct s as [|c s1].
    { exists []. cbn. now rewrite app_nil_r. }
    cbn [camel_words].
    assert (Hs1 : is_ascii s1 = true) by (cbn in Hs; now apply andb_prop in Hs).
    rewrite (Hascii s1 Hs1).
    destruct (index_upper_ascii_cases s1)
      as [[Hi Hsp] | (i & u & r & Hi & Hlt & Hd & Hu & Ht)]; rewrite Hi.
    + cbn [Z.add Z.leb Z.compare Z.opp Z.pos_sub].
      replace (-1 + 1 <=? 0) with true by reflexivity.
      rewrite Z.ltb_irrefl. unfold len. rewrite Nat2Z.id.
      rewrite take_all, drop_all.
      exists [String c s1]. split.
      * destruct fuel; reflexivity.
      * cbn. now rewrite Hsp.
    + replace (Z.of_nat i + 1 <=? 0) with false by (symmetry; apply Z.leb_gt; lia).
      replace (len (String c s1) <? Z.of_nat i + 1) with false
        by (symmetry; apply Z.ltb_ge; unfold len; cbn [String.length]; lia).
      replace (Z.to_nat (Z.of_nat i + 1)) with (S i) by lia.
      cbn [drop take].
      destruct (IH (drop i s1) (words ++ [String c (take i s1)])%list)
        as (ws & Hrun & Hjoin).
      { rewrite length_drop. cbn [String.length] in Hlen. lia. }
      { now apply is_ascii_drop. }
      exists (String c (take i s1) :: ws). split.
      * rewrite Hrun. now rewrite <- app_assoc.
      * assert (Hws : ws <> []).
        { intros ->. rewrite Hd in Hjoin. discriminate. }
        rewrite (Join_cons _ _ _ Hws), Hjoin, Hd. cbn [spaced].
        rewrite <- (take_drop i s1) at 2.
        rewrite space_before_upper_append, Ht, Hd.
        cbn [space_before_upper]. rewrite Hu.
        now rewrite append_cons.
Qed.

(** X9: On a title of bytes below 128 other than "os", [formatTitle] is the
    library's [Title] of the title with a space before each letter A to Z
    but a first one. *)
Theorem formatTitle_spaces_before_capitals (title : string) :
  IndexFunc_on_ascii IndexFunc_IsUpper ->
  is_ascii title = true ->
  formatTitle IndexFunc_IsUpper Title title =
    Done (if String.eqb title "os" then "OS" else Title (spaced title)).
Proof.
  intros Hascii Htitle.
  destruct (camel_words_spaced (String.length title) Hascii title [] (le_n _) Htitle)
    as (ws & Hrun & Hjoin).
  unfold formatTitle. cbn [app] in Hrun. rewrite Hrun, Hjoin.
  now destruct (String.eqb title "os").
Qed.

End TitleFacts.

(** The loop on the title "forwarderStats", with the search for a letter A
    to Z as the library's function. *)
Lemma formatTitle_keeps_every_byte_witness :
  exists words,
    gui.camel_words gui.index_upper_ascii 14 "forwarderStats" [] = gui.Done words /\
    String.concat "" words = "forwarderStats" /\
    Forall (fun w => w <> "") words /\
    gui.formatTitle gui.index_upper_ascii (fun s => s) "forwarderStats" =
      gui.Done (if String.eqb "forwarderStats" "os" then "OS"
                else GoStrings.Join words " ").
Proof.
  exact (formatTitle_keeps_every_byte gui.index_upper_ascii (fun s => s)
           "forwarderStats" index_upper_ascii_in_range).
Defined.

Lemma formatTitle_spaces_before_capitals_witness :
  gui.formatTitle gui.index_upper_ascii (fun s => s) "JMXStatus" =
    gui.Done (if String.eqb "JMXStatus" "os" then "OS" else gui.spaced "JMXStatus").
Proof.
  apply (formatTitle_spaces_before_capitals gui.index_upper_ascii (fun s => s)
           "JMXStatus").
  - intros s _. reflexivity.
  - reflexivity.
Defined.

Example formatTitle_examples :
  gui.formatTitle gui.index_upper_ascii (fun s => s) "aggregatorStats" =
    gui.Done "aggregator Stats" /\
  gui.formatTitle gui.index_upper_ascii (fun s => s) "os" = gui.Done "OS" /\
  gui.formatTitle gui.index_upper_ascii (fun s => s) "" = gui.Done "" /\
  gui.formatTitle (fun _ => 7) (fun s => s) "abc" =
    gui.Panics "slice bounds out of range".
Proof. repeat split. Qed.

(** ** The log of a config file that did not parse *)

Section ScanLogFacts.
Import GoStrings gui.
Implicit Types (name text parserErr : string) (lines block rest : list string).

(** Inside a block, lines with no tag are added one after the other, with
    nothing between them. *)
Lemma scan_log_in_block name parserErr block rest :
  Forall (fun text => tagged text = false) block ->
  scan_log name true parserErr (block ++ rest) =
  scan_log name true (parserErr ++ String.concat "" block) rest.
Proof.
  intros Hblock. revert parserErr.
  induction Hblock as [|text block Htext _ IH]; intros parserErr.
  - cbn. now rewrite append_empty_r.
  - cbn [app scan_log]. fold (tagged text). rewrite Htext. cbn [negb].
    rewrite IH, concat_empty_cons. now rewrite append_assoc.
Qed.

(** X15: A block: the line that names the config file starts it and lets go of
    what was found before; the first tagged line after it ends it and is not
    read for itself, also when it names the config file too; at the end of
    the log the block is the result. *)
Theorem scan_log_block name parserErr text block :
  names_invalid_config name text = true ->
  Forall (fun line => tagged line = false) block ->
  scan_log name false parserErr (text :: block) = text ++ String.concat "" block /\
  (forall closing rest,
     tagged closing = true ->
     scan_log name false parserErr (text :: block ++ closing :: rest) =
     scan_log name false (text ++ String.concat "" block) rest).
Proof.
  intros Htext Hblock. split.
  - cbn [scan_log]. fold (names_invalid_config name text). rewrite Htext.
    rewrite <- (app_nil_r block), scan_log_in_block by exact Hblock.
    now rewrite app_nil_r.
  - intros closing rest Hclosing.
    cbn [scan_log]. fold (names_invalid_config name text). rewrite Htext.
    rewrite scan_log_in_block by exact Hblock.
    cbn [scan_log]. fold (tagged closing). now rewrite Hclosing.
Qed.

(** What the loop has found is empty or starts with a line of the log that
    names the config file, at every point and so at the end. *)
Lemma scan_log_invariant name (log : list string) lines :
  forall in_block parserErr,
  (forall text, text ∈ lines -> text ∈ log) ->
  ((in_block = false /\ parserErr = "") \/
   exists text, text ∈ log /\ names_invalid_config name text = true /\
                HasPrefix parserErr text = true) ->
  scan_log name in_block parserErr lines = "" \/
  exists text,
    text ∈ log /\ names_invalid_config name text = true /\
    HasPrefix (scan_log name in_block parserErr lines) text = true.
Proof.
  induction lines as [|line lines IH]; intros in_block parserErr Hsub Hacc.
  - cbn [scan_log]. destruct Hacc as [[_ ->]|Hacc]; [now left | now right].
  - assert (Hsub' : forall text, text ∈ lines -> text ∈ log)
      by (intros text Ht; apply Hsub; now right).
    cbn [scan_log]. fold (tagged line) (names_invalid_config name line).
    destruct in_block.
    + destruct Hacc as [[Hb _]|(text & Hin & Hm & Hp)]; [discriminate|].
      destruct (tagged line); cbn [negb]; apply IH; try exact Hsub';
        right; exists text; (split; [exact Hin|]); (split; [exact Hm|]);
        [exact Hp|].
      rewrite (HasPrefix_split _ _ Hp), append_assoc. apply HasPrefix_append.
    + destruct (names_invalid_config name line) eqn:Hl; apply IH;
        try exact Hsub'; [|exact Hacc].
      right. exists line. split; [apply Hsub; left|]. split; [exact Hl|].
      rewrite <- (append_empty_r line) at 1. apply HasPrefix_append.
Qed.

(** X16: The parsing error that [renderError] shows is empty or starts with a
    line of the log that names the config file of the check; it is empty
    where no line does. *)
Theorem scan_log_result name lines :
  (scan_log name false "" lines = "" \/
   exists text,
     text ∈ lines /\ names_invalid_config name text = true /\
     HasPrefix (scan_log name false "" lines) text = true) /\
  (Forall (fun text => names_invalid_config name text = false) lines ->
   scan_log name false "" lines = "").
Proof.
  split.
  - apply scan_log_invariant; [auto | now left].
  - induction 1 as [|line lines Hl _ IH]; [reflexivity|].
    cbn [scan_log]. fold (names_invalid_config name line). now rewrite Hl.
Qed.

End ScanLogFacts.

(** Two config errors in a row in the log of the check "redis": the second
    line ends the block of the first and is passed over. *)
Lemma scan_log_block_witness :
  let first := "| ERROR | redis.yaml is not a valid config file: line 3" in
  let second := "| ERROR | redis.yaml is not a valid config file: line 9" in
  gui.scan_log "redis" false "" [first; "  did not find expected key"] =
    first ++ String.concat "" ["  did not find expected key"] /\
  (forall closing rest,
     gui.tagged closing = true ->
     gui.scan_log "redis" false ""
       (first :: ["  did not find expected key"] ++ closing :: rest) =
     gui.scan_log "redis" false
       (first ++ String.concat "" ["  did not find expected key"]) rest).
Proof.
  cbn zeta.
  apply (scan_log_block "redis" ""
           "| ERROR | redis.yaml is not a valid config file: line 3"
           ["  did not find expected key"]).
  - vm_compute. reflexivity.
  - repeat constructor.
Defined.

Example scan_log_second_error_is_passed_over :
  gui.scan_log "redis" false ""
    ["| ERROR | redis.yaml is not a valid config file: line 3";
     "| ERROR | redis.yaml is not a valid config file: line 9"] =
  "| ERROR | redis.yaml is not a valid config file: line 3".
Proof. vm_compute. reflexivity. Qed.

(** ** The pages of a check *)

Section RenderMoreFacts.
Import gui.
Context {Template FuncMap Stats LoaderErrs : Type} (fmap : FuncMap).
Context (template_New : string -> Template).
Context (Funcs : Template -> FuncMap -> Template).
Context (ParseFiles : Template -> string -> Template * errors.error).
Context (Execute_CheckStats :
           Template -> string -> CheckStats (Stats := Stats) -> string * errors.error).
Context (Execute_Errors :
           Template -> string -> Errors (LoaderErrs := LoaderErrs) -> string * errors.error).
Context (GetLoaderErrors : LoaderErrs) (log_file : string).
Context (os_Open : string -> list string * errors.error).
Context (Error_text : errors.error -> string).

#[local] Abbreviation check_page :=
  (renderCheck fmap template_New Funcs ParseFiles Execute_CheckStats).
#[local] Abbreviation error_page :=
  (renderError fmap template_New Funcs ParseFiles Execute_Errors GetLoaderErrors
     log_file os_Open Error_text).

(** X17: [renderCheck] and [renderError] return no part of a page with an error:
    the string is empty whenever the error is not nil, also when the
    execution of the template had written to the buffer before it failed.
    [renderError] hands a line to the logger only for a log file that
    [os.Open] refused, and returns the error of [os.Open] then. *)
Theorem render_error_comes_with_no_page (name : string) (stats : list Stats) :
  (errors.is_nil (snd (check_page name stats)) = false ->
   fst (check_page name stats) = "") /\
  (errors.is_nil (snd (fst (error_page name))) = false ->
   fst (fst (error_page name)) = "") /\
  (snd (error_page name) <> [] ->
   error_page name =
     ("", snd (os_Open log_file),
      ["GUI - Error reading log file: " ++ Error_text (snd (os_Open log_file))]) /\
   errors.is_nil (snd (os_Open log_file)) = false).
Proof.
  unfold renderCheck, renderError.
  destruct (ParseFiles (Funcs (template_New "singleCheck.tmpl") fmap) _) as [t1 e1].
  destruct (ParseFiles (Funcs (template_New "loaderErr.tmpl") fmap) _) as [t2 e2].
  destruct (os_Open log_file) as [logFile e3].
  destruct (Execute_CheckStats t1 _ _) as [b1 e4].
  destruct (Execute_Errors t2 _ _) as [b2 e5].
  cbn [fst snd].
  split; [|split].
  - destruct e1; cbn; [|reflexivity]. destruct e4; cbn; [discriminate|reflexivity].
  - destruct e2; cbn; [|reflexivity]. destruct e3; cbn; [|reflexivity].
    destruct e5; cbn; [discriminate|reflexivity].
  - destruct e2; cbn; [|congruence]. destruct e3; cbn.
    + destruct e5; cbn; congruence.
    + intros _. split; reflexivity.
Qed.

End RenderMoreFacts.

(** ** Sums and labels *)

Section NumberFacts.
Import GoRuntime gui.

(** X7: [add] is the sum where the sum is an [int], and is off by the size of
    the type where it is not: above the largest [int] the result is
    negative. *)
Theorem add_wraps_around (a : GOARCH) (x y : Z) :
  minInt a <= x <= maxInt a -> minInt a <= y <= maxInt a ->
  minInt a <= add a x y <= maxInt a /\
  (minInt a <= x + y <= maxInt a -> add a x y = x + y) /\
  (maxInt a < x + y -> add a x y = x + y - 2 ^ intSize a) /\
  (x + y < minInt a -> add a x y = x + y + 2 ^ intSize a).
Proof.
  intros Hx Hy. unfold add, int, minInt, maxInt in *.
  pose proof (wrap_range (intSize a) (x + y) (intSize_pos a)) as Hr.
  assert (Hp : 2 ^ intSize a = 2 * 2 ^ (intSize a - 1)).
  { replace (intSize a) with (Z.succ (intSize a - 1)) at 1 by lia.
    apply Z.pow_succ_r. pose proof (intSize_pos a). lia. }
  split; [lia|]. split; [|split].
  - intros Hs. apply wrap_id; [apply intSize_pos | lia].
  - intros Hs. unfold wrap.
    replace (x + y + 2 ^ (intSize a - 1))
      with (x + y - 2 ^ intSize a + 2 ^ (intSize a - 1) + 1 * 2 ^ intSize a) by lia.
    rewrite Z.mod_add by lia. rewrite Z.mod_small; lia.
  - intros Hs. unfold wrap.
    replace (x + y + 2 ^ (intSize a - 1))
      with (x + y + 2 ^ intSize a + 2 ^ (intSize a - 1) + (-1) * 2 ^ intSize a) by lia.
    rewrite Z.mod_add by lia. rewrite Z.mod_small; lia.
Qed.

(** The text of a number starts with a digit or the sign. *)
Lemma pretty_N_go_head (x : N) (s : string) :
  (0 < x)%N -> exists (n : N) rest, pretty_N_go x s = String (pretty_N_char n) rest.
Proof.
  revert s. induction (N.lt_wf_0 x) as [x _ IH]; intros s Hx.
  rewrite pretty_N_go_step by exact Hx.
  destruct (N.eq_dec (x `div` 10)%N 0%N) as [Hz|Hnz].
  - rewrite Hz, pretty_N_go_0. eauto.
  - apply IH; [apply N.div_lt; [exact Hx | reflexivity] | now apply N.neq_0_lt_0].
Qed.

Lemma pretty_N_char_not_o (n : N) : pretty_N_char n <> "o"%char.
Proof. unfold pretty_N_char. repeat case_match; discriminate. Qed.

Lemma Sprintf_d_not_a_label (i : Z) :
  Sprintf_d i <> "over 1M" /\ Sprintf_d i <> "over 100K".
Proof.
  unfold Sprintf_d, pretty, pretty_Z.
  destruct i as [|p|p].
  - split; discriminate.
  - unfold pretty, pretty_positive, pretty, pretty_N.
    destruct (decide (N.pos p = 0%N)) as [Hz|_]; [discriminate|].
    destruct (pretty_N_go_head (N.pos p) "" ltac:(lia)) as (digit & rest & ->).
    pose proof (pretty_N_char_not_o digit). split; congruence.
  - split; discriminate.
Qed.

(** X5: The labels of [mkHumanInt] tell the ranges: "over 1M" is the answer
    exactly above 1000000, "over 100K" exactly above 100000 and up to 1000000
    (one million itself included), and up to 100000 two numbers never get the
    same text. *)
Theorem mkHumanInt_labels (i j : Z) :
  (mkHumanInt i = "over 1M" <-> 1000000 < i) /\
  (mkHumanInt i = "over 100K" <-> 100000 < i <= 1000000) /\
  (i <= 100000 -> j <= 100000 -> mkHumanInt i = mkHumanInt j -> i = j).
Proof.
  destruct (Sprintf_d_not_a_label i) as [Hm Hk].
  destruct (mkHumanInt_cases i) as [[Hi Hr] | [[Hi Hr] | [Hi Hr]]];
    rewrite Hr; (split; [|split]).
  all: try (split; [intros; try discriminate; try contradiction; lia | intros; try reflexivity; lia]).
  all: try (intros; lia).
  intros _ Hj.
  destruct (mkHumanInt_cases j) as [[Hj' _] | [[Hj' _] | [_ Hrj]]]; try lia.
  rewrite Hrj. unfold Sprintf_d. apply pretty_Z_inj.
Qed.

End NumberFacts.

(** A value with none of the marks of a Python list. *)
Lemma pythonLoaderError_plain_witness :
  gui.pythonLoaderError (fun _ => ([], errors.nil)) "ImportError: No module named redis"
  = "ImportError: No module named redis".
Proof.
  apply (pythonLoaderError_plain (fun _ => ([], errors.nil))
           "ImportError: No module named redis"); vm_compute; reflexivity.
Defined.

(** The largest [int] of a 64-bit platform and one. *)
Lemma add_wraps_around_witness :
  GoRuntime.minInt GoRuntime.arch64 <=
    gui.add GoRuntime.arch64 (GoRuntime.maxInt GoRuntime.arch64) 1 <=
    GoRuntime.maxInt GoRuntime.arch64 /\
  gui.add GoRuntime.arch64 (GoRuntime.maxInt GoRuntime.arch64) 1 =
    GoRuntime.maxInt GoRuntime.arch64 + 1 - 2 ^ GoRuntime.intSize GoRuntime.arch64.
Proof.
  destruct (add_wraps_around GoRuntime.arch64 (GoRuntime.maxInt GoRuntime.arch64) 1)
    as (Hr & _ & Hover & _).
  - vm_compute. split; discriminate.
  - vm_compute. split; discriminate.
  - split; [exact Hr|]. apply Hover. vm_compute. reflexivity.
Defined.

(** ** More on the registry *)

Section RegistryMoreFacts.
Import GoRuntime listeners.
Context {Func : Type}.
Implicit Types (s : globals Func) (factory : ServiceListenerFactory Func).

(** X1: [Register] touches the entry of its name and the log, and nothing else:
    every other name keeps its factory or its absence, and the sentinel and
    the objects behind the errors stay as they are. *)
Theorem Register_changes_one_entry s (name : string) factory :
  reachable s ->
  exists s',
    Register name factory s = Returned tt s' /\
    (forall name', name <> name' ->
       map_index (ServiceListenerFactories s') name' =
       map_index (ServiceListenerFactories s) name') /\
    ErrNotSupported s' = ErrNotSupported s /\
    objects s' = objects s.
Proof.
  intros Hs. destruct (reachable_map s Hs) as [g Hg].
  eexists. split; [apply (Register_on_map _ _ _ _ Hg)|]. cbn.
  split; [|split; reflexivity].
  intros name' Hne. rewrite Hg. now apply map_index_insert_ne.
Qed.

(** X2: No call of [Register] takes a name out of the registry. *)
Theorem Register_never_unregisters s (name name' : string) factory s' :
  reachable s ->
  Register name factory s = Returned tt s' ->
  registered_in s name' = true ->
  registered_in s' name' = true.
Proof.
  intros Hs Hstep Hin. destruct (reachable_map s Hs) as [g Hg].
  rewrite (Register_on_map _ _ _ _ Hg) in Hstep. injection Hstep as <-.
  unfold registered_in in *. cbn [ServiceListenerFactories].
  destruct (decide (name = name')) as [<-|Hne].
  - now rewrite map_index_insert.
  - rewrite (map_index_insert_ne _ _ _ _ Hne). now rewrite <- Hg.
Qed.

(** X3: Two registrations under different names give the same registry in
    either order; the order shows in the log alone. *)
Theorem Register_order_of_names s (name1 name2 : string) factory1 factory2 :
  reachable s -> name1 <> name2 ->
  exists s1 s12 s2 s21,
    Register name1 factory1 s = Returned tt s1 /\
    Register name2 factory2 s1 = Returned tt s12 /\
    Register name2 factory2 s = Returned tt s2 /\
    Register name1 factory1 s2 = Returned tt s21 /\
    ServiceListenerFactories s12 = ServiceListenerFactories s21.
Proof.
  intros Hs Hne. destruct (reachable_map s Hs) as [g Hg].
  pose proof (Register_on_map s g name1 factory1 Hg) as H1.
  pose proof (Register_on_map s g name2 factory2 Hg) as H2.
  eexists _, _, _, _.
  split; [exact H1|]. split; [apply Register_on_map; reflexivity|].
  split; [exact H2|]. split; [apply Register_on_map; reflexivity|].
  cbn. f_equal. now apply insert_insert_ne.
Qed.

End RegistryMoreFacts.

(** The initial registry, "docker" registered with a factory. *)
Lemma Register_changes_one_entry_witness :
  exists s' : listeners.globals nat,
    listeners.Register "docker" (Some 1%nat) (listeners.init []) = GoRuntime.Returned tt s' /\
    (forall name', "docker" <> name' ->
       listeners.map_index (listeners.ServiceListenerFactories s') name' =
       listeners.map_index
         (listeners.ServiceListenerFactories (listeners.init (Func := nat) [])) name') /\
    listeners.ErrNotSupported s' = listeners.ErrNotSupported (listeners.init (Func := nat) []) /\
    listeners.objects s' = listeners.objects (listeners.init (Func := nat) []).
Proof.
  exact (Register_changes_one_entry (listeners.init []) "docker" (Some 1%nat)
           (listeners.reach_init [])).
Defined.

(** "docker" stays registered when a nil factory is registered as "ecs". *)
Lemma Register_never_unregisters_witness :
  exists s1 s2 : listeners.globals nat,
    listeners.Register "docker" (Some 1%nat) (listeners.init []) = GoRuntime.Returned tt s1 /\
    listeners.Register "ecs" None s1 = GoRuntime.Returned tt s2 /\
    listeners.registered_in s2 "docker" = true.
Proof.
  eexists _, _.
  split; [apply (Register_on_map _ ∅); reflexivity|].
  split; [apply Register_on_map; reflexivity|].
  eapply (Register_never_unregisters _ "ecs" "docker" None).
  - eapply listeners.reach_Register; [apply (listeners.reach_init [])|].
    apply (Register_on_map _ ∅). reflexivity.
  - apply Register_on_map. reflexivity.
  - unfold listeners.registered_in. cbn. now rewrite lookup_insert_eq.
Defined.

(** "docker" and "ecs" on the initial registry, in both orders. *)
Lemma Register_order_of_names_witness :
  exists s1 s12 s2 s21 : listeners.globals nat,
    listeners.Register "docker" (Some 1%nat) (listeners.init []) = GoRuntime.Returned tt s1 /\
    listeners.Register "ecs" (Some 2%nat) s1 = GoRuntime.Returned tt s12 /\
    listeners.Register "ecs" (Some 2%nat) (listeners.init []) = GoRuntime.Returned tt s2 /\
    listeners.Register "docker" (Some 1%nat) s2 = GoRuntime.Returned tt s21 /\
    listeners.ServiceListenerFactories s12 = listeners.ServiceListenerFactories s21.
Proof.
  apply (Register_order_of_names (listeners.init []) "docker" "ecs"
           (Some 1%nat) (Some 2%nat) (listeners.reach_init [])).
  discriminate.
Defined.

(** ** Numbers with a fraction *)

Section HumanMoreFacts.
Import GoRuntime gui.

(** X6: A positive number [m / 2^k] gets the label "over 1M" from [mkHuman]
    exactly when it is at least 1000001: the fraction is cut off first, so a
    number between 1000000 and 1000001 is "over 100K". *)
Theorem mkHuman_over_1M_from_1000001 (m : positive) (k : Z) :
  0 <= k -> Z.pos m / 2 ^ k <= maxInt64 ->
  (mkHuman (S754_finite false m (- k)) = Some "over 1M" <->
   1000001 * 2 ^ k <= Z.pos m).
Proof.
  intros Hk Hmax.
  assert (Hpow : 0 < 2 ^ k) by (apply Z.pow_pos_nonneg; lia).
  assert (Hmag : (if 0 <=? - k then Z.pos m * 2 ^ (- k) else Z.pos m / 2 ^ (- - k))
                 = Z.pos m / 2 ^ k).
  { destruct (Z.leb_spec 0 (- k)).
    - replace k with 0 by lia. cbn. now rewrite Z.div_1_r, Z.mul_1_r.
    - now rewrite Z.opp_involutive. }
  assert (Hnonneg : 0 <= Z.pos m / 2 ^ k) by (apply Z.div_pos; lia).
  unfold mkHuman, int64_of_float64. rewrite Hmag.
  replace ((minInt64 <=? Z.pos m / 2 ^ k) && (Z.pos m / 2 ^ k <=? maxInt64)) with true.
  2:{ symmetry. apply andb_true_intro. split; apply Z.leb_le; [|exact Hmax].
      unfold minInt64. lia. }
  destruct (Sprintf_d_not_a_label (Z.pos m / 2 ^ k)) as [Hm _].
  assert (Hdiv : 1000000 < Z.pos m / 2 ^ k <-> 1000001 * 2 ^ k <= Z.pos m).
  { split; intros H.
    - assert (1000001 <= Z.pos m / 2 ^ k) by lia.
      pose proof (Z.mul_div_le (Z.pos m) (2 ^ k) Hpow). nia.
    - assert (1000001 <= Z.pos m / 2 ^ k); [|lia].
      apply Z.div_le_lower_bound; lia. }
  rewrite <- Hdiv.
  destruct (Z.ltb_spec 1000000 (Z.pos m / 2 ^ k)) as [Hlt|Hge].
  - split; [intros _; exact Hlt | reflexivity].
  - split; [|lia].
    destruct (100000 <? Z.pos m / 2 ^ k); intros Heq; [discriminate|].
    injection Heq as Heq. contradiction.
Qed.

End HumanMoreFacts.

(** 1000000.5, that is 2000001 / 2, is not "over 1M"; 1000001 is. *)
Lemma mkHuman_over_1M_from_1000001_witness :
  (gui.mkHuman (S754_finite false 2000001 (- 1)) = Some "over 1M" <->
   1000001 * 2 ^ 1 <= 2000001) /\
  gui.mkHuman (S754_finite false 2000001 (- 1)) = Some "over 100K".
Proof.
  split; [|reflexivity].
  apply (mkHuman_over_1M_from_1000001 2000001 1); [lia|].
  vm_compute. discriminate.
Defined.

(** ** Pairs of bytes that a replacement cannot bring together *)

Section ReplacePairFacts.
Import GoStrings gui.
Implicit Types (s t old new : string) (a b c : ascii).

Lemma Contains_tail c s p : Contains (String c s) p = false -> Contains s p = false.
Proof. rewrite Contains_cons. now intros [_ H]%orb_false_elim. Qed.

(** What follows [new] does not get the pair when [new] has not its first
    byte. *)
Lemma Contains_pair_after_new a b new t :
  has_byte a new = false ->
  Contains t (String a (String b "")) = false ->
  Contains (new ++ t) (String a (String b "")) = false.
Proof.
  intros Ha Ht. induction new as [|d new IH]; [exact Ht|].
  cbn in Ha. apply orb_false_elim in Ha as [Had Ha].
  rewrite append_cons, Contains_cons, (IH Ha), orb_false_r.
  now rewrite HasPrefix_cons, Had.
Qed.

(** The first byte of the result is the first byte of the string, unless it
    is the first byte of [new]. *)
Lemma Replace_first_byte b s old new :
  (forall new', new <> String b new') -> new <> "" ->
  HasPrefix (Replace s old new) (String b "") = true ->
  HasPrefix s (String b "") = true.
Proof.
  intros Hb Hnew. destruct s as [|c s]; [discriminate|].
  destruct (HasPrefix (String c s) old) eqn:Hhit.
  - unfold Replace. cbn [replace_from]. rewrite Hhit.
    destruct new as [|n new]; [contradiction|].
    rewrite append_cons, HasPrefix_cons, HasPrefix_empty, andb_true_r.
    intros ->%Ascii.eqb_eq. now destruct (Hb new).
  - rewrite Replace_miss by exact Hhit. now rewrite !HasPrefix_cons, !HasPrefix_empty.
Qed.

(** A pair of bytes that the string does not have is not in the result
    either, when [new] has not the first of the two and does not start with
    the second. *)
Lemma replace_from_keeps_pair_out a b old new k s :
  has_byte a new = false -> (forall new', new <> String b new') -> new <> "" ->
  Contains s (String a (String b "")) = false ->
  Contains (replace_from old new k s) (String a (String b "")) = false.
Proof.
  intros Ha Hb Hnew. revert k.
  induction s as [|c s IH]; intros k Hs; cbn [replace_from]; [exact Hs|].
  pose proof (Contains_tail _ _ _ Hs) as Hs'.
  destruct k as [|k]; [|now apply IH].
  destruct (HasPrefix (String c s) old) eqn:Hhit.
  - apply Contains_pair_after_new; [exact Ha | now apply IH].
  - rewrite Contains_cons, (IH 0%nat Hs'), orb_false_r.
    rewrite Contains_cons in Hs. apply orb_false_elim in Hs as [Hp _].
    rewrite HasPrefix_cons in Hp |- *.
    destruct (Ascii.eqb a c); [cbn in Hp |- *|reflexivity].
    destruct (HasPrefix (replace_from old new 0 s) (String b "")) eqn:Hr; [|reflexivity].
    rewrite <- Hp. symmetry.
    destruct s as [|d s]; [discriminate|].
    pose proof (Replace_first_byte b (String d s) old new Hb Hnew Hr) as Hd.
    rewrite HasPrefix_cons, HasPrefix_empty, andb_true_r in Hd.
    now rewrite !HasPrefix_cons, Hd, HasPrefix_empty.
Qed.

Section WithUnmarshal.
Context (json_Unmarshal_strings : list Byte.byte -> list string * errors.error).

(** X11: The page of [pythonLoaderError] never shows a backslash followed by
    n: the fifth replacement takes every one out, and the sixth brings none
    back. *)
Theorem pythonLoaderError_no_backslash_n (value : string) :
  Contains (pythonLoaderError json_Unmarshal_strings value) "\n" = false.
Proof.
  unfold pythonLoaderError.
  destruct (json_Unmarshal_strings _) as [loaderErrorArray e].
  apply replace_from_keeps_pair_out; [reflexivity | discriminate | discriminate |].
  apply Replace_removes; [discriminate | discriminate |].
  intros c Hc. cbn in Hc. rewrite orb_false_r in Hc.
  apply orb_prop in Hc as [->%Ascii.eqb_eq | ->%Ascii.eqb_eq]; reflexivity.
Qed.

End WithUnmarshal.

End ReplacePairFacts.

Example pythonLoaderError_example :
  gui.pythonLoaderError (fun _ => ([], errors.nil))
    "['Traceback (most recent call last):\n', '  File x.py, line 1\n', 'ImportError\n']"
  = "Traceback (most recent call last):<br>&nbsp;&nbsp;&nbsp;File x.py, line 1<br>ImportError".
Proof. vm_compute. reflexivity. Qed.

(** ** The registry variable set to nil *)

Section RegistryNilFacts.
Import GoRuntime listeners.
Context {Func : Type}.

(** X4: When the variable of the registry holds the nil map, [Register] panics
    at its assignment, after it has handed its warning to the logger: the
    panic comes with the log one line longer for a nil factory, and with the
    log as it was for another factory. *)
Theorem Register_panics_on_nil_map (s : globals Func) (name : string)
  (factory : ServiceListenerFactory Func) :
  ServiceListenerFactories s = None ->
  exists s',
    Register name factory s = Panicked "assignment to entry in nil map" s' /\
    ServiceListenerFactories s' = None /\
    logged s' = (logged s ++ (if factory is None then [warning_of name] else []))%list.
Proof.
  intros Hnil.
  unfold Register, mbind, Go_bind, bind, log_Warnf, log_Errorf, log_line,
    get, map_assign, panic, mret, Go_ret, ret.
  destruct factory as [f|]; cbn; rewrite Hnil; cbn; rewrite ?Hnil.
  - eexists. split; [reflexivity|]. split; [exact Hnil|]. now rewrite app_nil_r.
  - eexists. split; [reflexivity|]. split; reflexivity.
Qed.

End RegistryNilFacts.

(** The variable set to nil by a user of the package, then a nil factory. *)
Lemma Register_panics_on_nil_map_witness :
  let s := {| listeners.ServiceListenerFactories := None;
              listeners.ErrNotSupported := errors.errorString_at 0;
              listeners.logged := [];
              listeners.objects := [listeners.not_supported_text] |} in
  exists s' : listeners.globals nat,
    listeners.Register "docker" None s =
      GoRuntime.Panicked "assignment to entry in nil map" s' /\
    listeners.ServiceListenerFactories s' = None /\
    listeners.logged s' = ([] ++ [listeners.warning_of "docker"])%list.
Proof.
  cbn zeta.
  exact (Register_panics_on_nil_map
           {| listeners.ServiceListenerFactories := None;
              listeners.ErrNotSupported := errors.errorString_at 0;
              listeners.logged := [];
              listeners.objects := [listeners.not_supported_text] |}
           "docker" None eq_refl).
Defined.
